(** * Angular compiler excerpts: incremental state, UMD rendering, ESM
    dependency host and the inject-implementation switch.

    A shallow embedding of the TypeScript sources and the properties the
    specification states about them. *)

From Stdlib Require Import ZArith String Ascii List Lia.
From stdpp Require Import base option list gmap strings.

Set Warnings "-level-tolerance,-clear-no-such-hyp,-register-all".

(** * ngtsc/incremental/src/state.ts *)

Module IncrementalState.

(** Objects are compared by reference in the source ([Set.has], [Map.get]);
    the embedding gives every object a reference, [sf_ref] for a
    [ts.SourceFile] and [cd_ref] for a class declaration node. *)
Record SourceFile := mkSourceFile {
  sf_ref : positive;
  isDeclarationFile : bool
}.

#[global] Instance SourceFile_eq_dec : EqDecision SourceFile.
Proof. solve_decision. Defined.

#[global] Instance SourceFile_countable : Countable SourceFile.
Proof.
  apply (inj_countable' (λ f, (sf_ref f, isDeclarationFile f))
                        (λ p, mkSourceFile (fst p) (snd p))).
  by intros [].
Defined.

Record ClassDeclaration := mkClassDeclaration {
  cd_ref : positive;
  getSourceFile : SourceFile
}.

#[global] Instance ClassDeclaration_eq_dec : EqDecision ClassDeclaration.
Proof. solve_decision. Defined.

#[global] Instance ClassDeclaration_countable : Countable ClassDeclaration.
Proof.
  apply (inj_countable' (λ c, (cd_ref c, getSourceFile c))
                        (λ p, mkClassDeclaration (fst p) (snd p))).
  by intros [].
Defined.

(** [Reference<ClassDeclaration>]: only [ref.node] is used. *)
Record Reference := mkReference { node : ClassDeclaration }.

(** [ts.Program]: only [getSourceFiles()] is used. *)
Record Program := mkProgram { getSourceFiles : list SourceFile }.

(** A JavaScript [Set] that the code later turns into an array keeps its
    insertion order: a duplicate-free list, [add] appending at the end. *)
Definition jsset_add `{EqDecision A} (x : A) (s : list A) : list A :=
  if bool_decide (x ∈ s) then s else s ++ [x].

(** References into the object store. *)
Abbreviation loc := positive (only parsing).

Section State.

(** The analysis results are declared in ngtsc/metadata; the state only
    stores them and reads [meta.ref.node]. *)
Context {DirectiveMeta NgModuleMeta PipeMeta : Type}.
Variable directive_ref : DirectiveMeta → Reference.
Variable ngModule_ref : NgModuleMeta → Reference.
Variable pipe_ref : PipeMeta → Reference.

(** class FileMetadata *)
Record FileMetadata := mkFileMetadata {
  fileDependencies : list SourceFile;
  directiveMeta : gmap ClassDeclaration DirectiveMeta;
  ngModuleMeta : gmap ClassDeclaration NgModuleMeta;
  pipeMeta : gmap ClassDeclaration PipeMeta
}.

(** [new FileMetadata()] *)
Definition new_FileMetadata : FileMetadata :=
  mkFileMetadata [] ∅ ∅ ∅.

(** An [IncrementalState] object. Its [Set] and [Map] are private and built
    by the two static factories only, so no other object shares them and they
    are kept as values inside the object; the [FileMetadata] objects the map
    points to are shared between states and live in the store. *)
Record IncrementalStateObj := mkIncrementalState {
  unchangedFiles : gset SourceFile;
  metadata : gmap SourceFile loc
}.

(** The object store. *)
Record Heap := mkHeap {
  states : gmap loc IncrementalStateObj;
  fileMetas : gmap loc FileMetadata
}.

#[global] Instance FileMetadata_inhabited : Inhabited FileMetadata :=
  populate new_FileMetadata.
#[global] Instance IncrementalStateObj_inhabited : Inhabited IncrementalStateObj :=
  populate (mkIncrementalState ∅ ∅).

(** Dereferencing. A reference held by the program always points to an
    allocated object; at a reference that is not allocated the total lookup
    reads an empty object. *)
Definition state_of (h : Heap) (this : loc) : IncrementalStateObj :=
  states h !!! this.
Definition meta_of (h : Heap) (m : loc) : FileMetadata :=
  fileMetas h !!! m.

(** Methods that write to the store. *)
Definition M (A : Type) : Type := Heap → A * Heap.

Definition ret {A} (a : A) : M A := λ h, (a, h).
Definition bind {A B} (m : M A) (k : A → M B) : M B :=
  λ h, let '(a, h1) := m h in k a h1.

Notation "'do' x <- m 'in' k" := (bind m (λ x, k))
  (at level 10, x name, m at level 100, k at level 200, only parsing).

(** [new IncrementalState(unchangedFiles, metadata)] *)
Definition new_IncrementalState
    (u : gset SourceFile) (md : gmap SourceFile loc) : M loc :=
  λ h, let r := base.fresh (dom (states h)) in
       (r, mkHeap (<[r := mkIncrementalState u md]> (states h)) (fileMetas h)).

Definition alloc_FileMetadata : M loc :=
  λ h, let r := base.fresh (dom (fileMetas h)) in
       (r, mkHeap (states h) (<[r := new_FileMetadata]> (fileMetas h))).

Definition set_metadata (this : loc) (sf : SourceFile) (m : loc) : M unit :=
  λ h, let st := state_of h this in
       (tt, mkHeap (<[this := mkIncrementalState (unchangedFiles st)
                                  (<[sf := m]> (metadata st))]> (states h))
                   (fileMetas h)).

Definition update_meta (m : loc) (f : FileMetadata → FileMetadata) : M unit :=
  λ h, (tt, mkHeap (states h) (<[m := f (meta_of h m)]> (fileMetas h))).

(** safeToSkip *)
Definition safeToSkip (h : Heap) (this : loc) (sf : SourceFile) : bool :=
  bool_decide (sf ∈ unchangedFiles (state_of h this)).

(** getFileDependencies *)
Definition getFileDependencies (h : Heap) (this : loc) (file : SourceFile)
    : list SourceFile :=
  match metadata (state_of h this) !! file with
  | Some meta => fileDependencies (meta_of h meta)
  | None => []
  end.

(** getNgModuleMetadata, getDirectiveMetadata, getPipeMetadata *)
Definition getNgModuleMetadata (h : Heap) (this : loc) (ref : Reference)
    : option NgModuleMeta :=
  match metadata (state_of h this) !! getSourceFile (node ref) with
  | Some meta => ngModuleMeta (meta_of h meta) !! node ref
  | None => None
  end.

Definition getDirectiveMetadata (h : Heap) (this : loc) (ref : Reference)
    : option DirectiveMeta :=
  match metadata (state_of h this) !! getSourceFile (node ref) with
  | Some meta => directiveMeta (meta_of h meta) !! node ref
  | None => None
  end.

Definition getPipeMetadata (h : Heap) (this : loc) (ref : Reference)
    : option PipeMeta :=
  match metadata (state_of h this) !! getSourceFile (node ref) with
  | Some meta => pipeMeta (meta_of h meta) !! node ref
  | None => None
  end.

(** ensureMetadata *)
Definition ensureMetadata (this : loc) (sf : SourceFile) : M loc :=
  λ h, match metadata (state_of h this) !! sf with
       | Some meta => (do _ <- set_metadata this sf meta in ret meta) h
       | None => (do meta <- alloc_FileMetadata in
                  do _ <- set_metadata this sf meta in ret meta) h
       end.

(** trackFileDependency *)
Definition trackFileDependency (this : loc) (dep src : SourceFile) : M unit :=
  do meta <- ensureMetadata this src in
  update_meta meta (λ fm, mkFileMetadata (jsset_add dep (fileDependencies fm))
                            (directiveMeta fm) (ngModuleMeta fm) (pipeMeta fm)).

(** registerNgModuleMetadata, registerDirectiveMetadata, registerPipeMetadata *)
Definition registerNgModuleMetadata (this : loc) (meta : NgModuleMeta) : M unit :=
  let n := node (ngModule_ref meta) in
  do m <- ensureMetadata this (getSourceFile n) in
  update_meta m (λ fm, mkFileMetadata (fileDependencies fm) (directiveMeta fm)
                         (<[n := meta]> (ngModuleMeta fm)) (pipeMeta fm)).

Definition registerDirectiveMetadata (this : loc) (meta : DirectiveMeta) : M unit :=
  let n := node (directive_ref meta) in
  do m <- ensureMetadata this (getSourceFile n) in
  update_meta m (λ fm, mkFileMetadata (fileDependencies fm)
                         (<[n := meta]> (directiveMeta fm)) (ngModuleMeta fm) (pipeMeta fm)).

Definition registerPipeMetadata (this : loc) (meta : PipeMeta) : M unit :=
  let n := node (pipe_ref meta) in
  do m <- ensureMetadata this (getSourceFile n) in
  update_meta m (λ fm, mkFileMetadata (fileDependencies fm) (directiveMeta fm)
                         (ngModuleMeta fm) (<[n := meta]> (pipeMeta fm))).

(** The static factory [IncrementalState.fresh()]. *)
Definition fresh : M loc := new_IncrementalState ∅ ∅.

(** The [for ... of] loop of [reconcile] over [newProgram.getSourceFiles()].
    [unchangedFiles] and [metadata] are the two local collections; [None] is
    the early [return IncrementalState.fresh()]. *)
Fixpoint reconcile_loop (h : Heap) (previousState : loc)
    (oldFiles newFiles : gset SourceFile) (files : list SourceFile)
    (unchangedFiles : gset SourceFile) (metadata_ : gmap SourceFile loc)
    : option (gset SourceFile * gmap SourceFile loc) :=
  match files with
  | [] => Some (unchangedFiles, metadata_)
  | newFile :: rest =>
      if bool_decide (newFile ∈ oldFiles) then
        let oldDeps := getFileDependencies h previousState newFile in
        if forallb (λ oldDep, bool_decide (oldDep ∈ newFiles)) oldDeps then
          let unchangedFiles := {[newFile]} ∪ unchangedFiles in
          let metadata_ :=
            match metadata (state_of h previousState) !! newFile with
            | Some meta => <[newFile := meta]> metadata_
            | None => metadata_
            end in
          reconcile_loop h previousState oldFiles newFiles rest unchangedFiles metadata_
        else
          reconcile_loop h previousState oldFiles newFiles rest unchangedFiles metadata_
      else if isDeclarationFile newFile then None
      else reconcile_loop h previousState oldFiles newFiles rest unchangedFiles metadata_
  end.

(** The static method [IncrementalState.reconcile]. *)
Definition reconcile (previousState : loc) (oldProgram newProgram : Program) : M loc :=
  λ h,
    let oldFiles : gset SourceFile := list_to_set (getSourceFiles oldProgram) in
    let newFiles : gset SourceFile := list_to_set (getSourceFiles newProgram) in
    match reconcile_loop h previousState oldFiles newFiles
            (getSourceFiles newProgram) ∅ ∅ with
    | Some (unchangedFiles, metadata_) =>
        new_IncrementalState unchangedFiles metadata_ h
    | None => fresh h
    end.

(** ** Properties of reconciliation *)

(** The test the loop makes on a file of the new program that is also a file
    of the old one. *)
Definition deps_present (h : Heap) (previousState : loc)
    (newFiles : gset SourceFile) (f : SourceFile) : bool :=
  forallb (λ oldDep, bool_decide (oldDep ∈ newFiles))
          (getFileDependencies h previousState f).

(** The unchanged criterion read without the typings guard, for one call of
    [reconcile]: a file of the new program is skippable in the result exactly when it is a file of the
    old program and all its recorded dependencies are files of the new one. *)
Definition unchanged_iff_as_stated (h : Heap) (prev : loc) (old new : Program) : Prop :=
  ∀ f, f ∈ getSourceFiles new →
    (safeToSkip (reconcile prev old new h).2 (reconcile prev old new h).1 f = true ↔
     f ∈ getSourceFiles old ∧
     Forall (λ d, d ∈ getSourceFiles new) (getFileDependencies h prev f)).

Lemma deps_present_Forall h prev (newFiles : gset SourceFile) f :
  deps_present h prev newFiles f = true ↔
  Forall (λ d, d ∈ newFiles) (getFileDependencies h prev f).
Proof.
  unfold deps_present. rewrite forallb_forall, Forall_forall.
  split; intros H d Hd.
  - apply list_elem_of_In, H in Hd. by apply bool_decide_eq_true in Hd.
  - apply list_elem_of_In, H in Hd. by apply bool_decide_eq_true.
Qed.

Lemma reconcile_loop_None h prev oldFiles newFiles files u md :
  reconcile_loop h prev oldFiles newFiles files u md = None ↔
  ∃ d, d ∈ files ∧ d ∉ oldFiles ∧ isDeclarationFile d = true.
Proof.
  revert u md. induction files as [|f rest IH]; intros u md; simpl.
  - split; [done|]. intros (d & Hd & _). by apply elem_of_nil in Hd.
  - case_bool_decide as Hold.
    + fold (deps_present h prev newFiles f).
      assert (Hrest : (∃ d, d ∈ (f :: rest) ∧ d ∉ oldFiles ∧ isDeclarationFile d = true)
                    ↔ (∃ d, d ∈ rest ∧ d ∉ oldFiles ∧ isDeclarationFile d = true)).
      { split.
        - intros (d & [->|Hd]%elem_of_cons & Hn & Hdecl); [done|eauto].
        - intros (d & Hd & Hn & Hdecl). exists d. rewrite elem_of_cons. eauto. }
      rewrite Hrest. destruct (deps_present h prev newFiles f); apply IH.
    + destruct (isDeclarationFile f) eqn:Hdecl.
      * split; [|done]. intros _. exists f. rewrite elem_of_cons. eauto.
      * rewrite IH. split.
        -- intros (d & Hd & Hn & Hd'). exists d. rewrite elem_of_cons. eauto.
        -- intros (d & [->|Hd]%elem_of_cons & Hn & Hd'); [congruence|eauto].
Qed.

Lemma reconcile_loop_unchanged h prev oldFiles newFiles files u md u' md' :
  reconcile_loop h prev oldFiles newFiles files u md = Some (u', md') →
  ∀ f, f ∈ u' ↔
       f ∈ u ∨ (f ∈ files ∧ f ∈ oldFiles ∧ deps_present h prev newFiles f = true).
Proof.
  revert u md. induction files as [|x rest IH]; intros u md; simpl.
  - intros [= <- <-] f. split; [auto|]. intros [?|(H & _)]; [done|].
    by apply elem_of_nil in H.
  - fold (deps_present h prev newFiles x).
    case_bool_decide as Hold.
    + destruct (deps_present h prev newFiles x) eqn:Hdeps.
      * intros Hloop f. rewrite (IH _ _ Hloop f), elem_of_union, elem_of_singleton,
          elem_of_cons. naive_solver.
      * intros Hloop f. rewrite (IH _ _ Hloop f), elem_of_cons.
        split; [naive_solver|]. intros [?|([->|?] & ? & ?)]; [auto|congruence|auto].
    + destruct (isDeclarationFile x); [done|].
      intros Hloop f. rewrite (IH _ _ Hloop f), elem_of_cons.
      split; [naive_solver|]. intros [?|([->|?] & ? & ?)]; [auto|done|auto].
Qed.

Lemma reconcile_loop_metadata h prev oldFiles newFiles files u md u' md' :
  (∀ f, md !! f = if bool_decide (f ∈ u)
                  then metadata (state_of h prev) !! f else None) →
  reconcile_loop h prev oldFiles newFiles files u md = Some (u', md') →
  ∀ f, md' !! f = if bool_decide (f ∈ u')
                  then metadata (state_of h prev) !! f else None.
Proof.
  revert u md. induction files as [|x rest IH]; intros u md Hinv; simpl.
  - by intros [= <- <-].
  - case_bool_decide as Hold.
    + destruct (forallb _ _).
      * apply IH. intros f.
        destruct (decide (f = x)) as [->|Hne].
        -- rewrite bool_decide_eq_true_2 by set_solver.
           destruct (metadata (state_of h prev) !! x) as [m|] eqn:Hm.
           ++ by rewrite lookup_insert_eq.
           ++ rewrite Hinv, Hm. by case_bool_decide.
        -- assert (Hmd : (match metadata (state_of h prev) !! x with
                          | Some meta => <[x:=meta]> md
                          | None => md
                          end) !! f = md !! f).
           { destruct (metadata (state_of h prev) !! x); [|done].
             by rewrite lookup_insert_ne. }
           rewrite Hmd, Hinv.
           repeat case_bool_decide; set_solver.
      * by apply IH.
    + destruct (isDeclarationFile x); [done|]. by apply IH.
Qed.

Lemma reconcile_loop_metadata_init h prev oldFiles newFiles files u' md' :
  reconcile_loop h prev oldFiles newFiles files ∅ ∅ = Some (u', md') →
  ∀ f, md' !! f = if bool_decide (f ∈ u')
                  then metadata (state_of h prev) !! f else None.
Proof.
  apply reconcile_loop_metadata. intros f. rewrite lookup_empty.
  by rewrite bool_decide_eq_false_2 by apply not_elem_of_empty.
Qed.

Lemma state_of_new_IncrementalState u md h :
  state_of (new_IncrementalState u md h).2 (new_IncrementalState u md h).1
  = mkIncrementalState u md.
Proof. unfold state_of, new_IncrementalState; simpl. apply lookup_total_insert_eq. Qed.

Lemma new_IncrementalState_is_new u md h :
  (new_IncrementalState u md h).1 ∉ dom (states h).
Proof. apply is_fresh. Qed.

Lemma new_IncrementalState_frame u md h (s : loc) :
  s ∈ dom (states h) →
  states (new_IncrementalState u md h).2 !! s = states h !! s.
Proof.
  intros Hs. unfold new_IncrementalState; simpl. apply lookup_insert_ne.
  intros Heq. apply (is_fresh (dom (states h))). by rewrite Heq.
Qed.

Lemma new_IncrementalState_fileMetas u md h :
  fileMetas (new_IncrementalState u md h).2 = fileMetas h.
Proof. done. Qed.

Lemma reconcile_fileMetas prev old new h :
  fileMetas (reconcile prev old new h).2 = fileMetas h.
Proof. unfold reconcile. by destruct (reconcile_loop _ _ _ _ _ _ _) as [[??]|]. Qed.

Lemma reconcile_is_new prev old new h :
  (reconcile prev old new h).1 ∉ dom (states h).
Proof.
  unfold reconcile. destruct (reconcile_loop _ _ _ _ _ _ _) as [[??]|];
    apply new_IncrementalState_is_new.
Qed.

Lemma reconcile_frame prev old new h (s : loc) :
  s ∈ dom (states h) →
  states (reconcile prev old new h).2 !! s = states h !! s.
Proof.
  intros Hs. unfold reconcile. destruct (reconcile_loop _ _ _ _ _ _ _) as [[??]|];
    by apply new_IncrementalState_frame.
Qed.

(** What the returned object holds, in the two ways the loop can end. *)
Lemma reconcile_result prev old new h :
  state_of (reconcile prev old new h).2 (reconcile prev old new h).1 =
  match reconcile_loop h prev (list_to_set (getSourceFiles old))
          (list_to_set (getSourceFiles new)) (getSourceFiles new) ∅ ∅ with
  | Some (u, md) => mkIncrementalState u md
  | None => mkIncrementalState ∅ ∅
  end.
Proof.
  unfold reconcile. destruct (reconcile_loop _ _ _ _ _ _ _) as [[??]|];
    apply state_of_new_IncrementalState.
Qed.

(** C1 (amended): when the new program has no declaration file that is
    missing from the old program, [reconcile] marks a file unchanged exactly
    when it is a file of the new program and of the old program and every
    dependency the previous state records for it is a file of the new program;
    the result's metadata map holds, for exactly those files, the entry of the
    previous state (the same [FileMetadata] object, whose content the call
    leaves as it was), and no entry for any other file. *)
Theorem reconcile_unchanged_iff (h : Heap) (prev : loc) (old new : Program) :
  (∀ d, d ∈ getSourceFiles new → isDeclarationFile d = true →
        d ∈ getSourceFiles old) →
  let res := reconcile prev old new h in
  (∀ f, safeToSkip res.2 res.1 f = true ↔
        f ∈ getSourceFiles new ∧ f ∈ getSourceFiles old ∧
        Forall (λ d, d ∈ getSourceFiles new) (getFileDependencies h prev f)) ∧
  (∀ f, metadata (state_of res.2 res.1) !! f =
        if safeToSkip res.2 res.1 f then metadata (state_of h prev) !! f else None) ∧
  fileMetas res.2 = fileMetas h.
Proof.
  intros Hdecl res. subst res.
  split; [|split]; [| |apply reconcile_fileMetas].
  - intros f. unfold safeToSkip. rewrite reconcile_result.
    destruct (reconcile_loop _ _ _ _ _ _ _) as [[u md]|] eqn:Hloop.
    + simpl. rewrite bool_decide_eq_true, (reconcile_loop_unchanged _ _ _ _ _ _ _ _ _ Hloop f).
      rewrite deps_present_Forall, !elem_of_list_to_set.
      setoid_rewrite elem_of_list_to_set. set_solver.
    + apply reconcile_loop_None in Hloop as (d & Hd & Hn & Hd').
      rewrite elem_of_list_to_set in Hn. destruct Hn. by apply Hdecl.
  - intros f. unfold safeToSkip. rewrite reconcile_result.
    destruct (reconcile_loop _ _ _ _ _ _ _) as [[u md]|] eqn:Hloop.
    + simpl. apply (reconcile_loop_metadata_init _ _ _ _ _ _ _ Hloop f).
    + simpl. rewrite lookup_empty. by case_bool_decide.
Qed.

(** C2: if the new program holds a declaration file that is not a file of the
    old program, [reconcile] returns what [IncrementalState.fresh()] returns:
    a state with an empty unchanged set and an empty metadata map, so no file
    is skippable and no file has recorded dependencies, whatever the loop did
    before it reached that file. *)
Theorem reconcile_new_declaration_file (h : Heap) (prev : loc) (old new : Program)
    (d : SourceFile) :
  d ∈ getSourceFiles new → isDeclarationFile d = true → d ∉ getSourceFiles old →
  let res := reconcile prev old new h in
  res = fresh h ∧
  unchangedFiles (state_of res.2 res.1) = ∅ ∧
  metadata (state_of res.2 res.1) = ∅ ∧
  ∀ f, safeToSkip res.2 res.1 f = false ∧ getFileDependencies res.2 res.1 f = [].
Proof.
  intros Hd Hdecl Hold res.
  assert (Hloop : reconcile_loop h prev (list_to_set (getSourceFiles old))
            (list_to_set (getSourceFiles new)) (getSourceFiles new) ∅ ∅ = None).
  { apply reconcile_loop_None. exists d. by rewrite elem_of_list_to_set. }
  assert (Hst : state_of res.2 res.1 = mkIncrementalState ∅ ∅).
  { subst res. by rewrite reconcile_result, Hloop. }
  split; [|split; [|split]].
  - subst res. unfold reconcile. by rewrite Hloop.
  - by rewrite Hst.
  - by rewrite Hst.
  - intros f. unfold safeToSkip, getFileDependencies. rewrite Hst. simpl.
    split; [by apply bool_decide_eq_false_2, not_elem_of_empty|].
    by rewrite lookup_empty.
Qed.

(** Reconciling against one program as old and as new program marks all
    its files unchanged when the dependencies the state records for them are
    files of the program. *)
Lemma reconcile_same_program (h : Heap) (s : loc) (p : Program) :
  (∀ f, f ∈ getSourceFiles p →
        deps_present h s (list_to_set (getSourceFiles p)) f = true) →
  unchangedFiles (state_of (reconcile s p p h).2 (reconcile s p p h).1)
  = list_to_set (getSourceFiles p).
Proof.
  intros Hdeps. rewrite reconcile_result.
  destruct (reconcile_loop h _ _ _ _ _ _) as [[u md]|] eqn:Hloop; simpl.
  - apply set_eq. intros f.
    rewrite (reconcile_loop_unchanged _ _ _ _ _ _ _ _ _ Hloop f).
    rewrite !elem_of_list_to_set. split.
    + intros [Hf|(Hf & _)]; [by apply not_elem_of_empty in Hf|done].
    + intros Hf. right. auto.
  - apply reconcile_loop_None in Hloop as (d & Hd & Hn & _).
    by rewrite elem_of_list_to_set in Hn.
Qed.

(** The state returned by a reconciliation towards [p] records, for each
    file, dependencies that are files of [p] only. *)
Lemma reconcile_deps_present (h : Heap) (prev : loc) (old p : Program) (f : SourceFile) :
  deps_present (reconcile prev old p h).2 (reconcile prev old p h).1
    (list_to_set (getSourceFiles p)) f = true.
Proof.
  unfold deps_present, getFileDependencies, meta_of.
  rewrite reconcile_result, reconcile_fileMetas.
  destruct (reconcile_loop h _ _ _ _ _ _) as [[u md]|] eqn:Hloop; simpl;
    [|by rewrite lookup_empty].
  rewrite (reconcile_loop_metadata_init _ _ _ _ _ _ _ Hloop f).
  case_bool_decide as Hu; [|done].
  apply (reconcile_loop_unchanged _ _ _ _ _ _ _ _ _ Hloop) in Hu
    as [Hu|(_ & _ & Hu)]; [by apply not_elem_of_empty in Hu|].
  exact Hu.
Qed.

(** C5: reconciling the state a reconciliation towards [p] returned once more,
    with [p] as old and as new program, marks every file of [p] unchanged:
    the unchanged set of the second result is the file set of [p]. *)
Theorem reconcile_second_pass (h : Heap) (prev : loc) (old p : Program) :
  let s := reconcile prev old p h in
  let res := reconcile s.1 p p s.2 in
  unchangedFiles (state_of res.2 res.1) = list_to_set (getSourceFiles p) ∧
  ∀ f, f ∈ getSourceFiles p → safeToSkip res.2 res.1 f = true.
Proof.
  intros s res.
  assert (Hunch : unchangedFiles (state_of res.2 res.1) = list_to_set (getSourceFiles p)).
  { apply reconcile_same_program. intros f _. apply reconcile_deps_present. }
  split; [done|]. intros f Hf. unfold safeToSkip. rewrite Hunch.
  by apply bool_decide_eq_true, elem_of_list_to_set.
Qed.

(** C6: [reconcile] returns a reference to an object that did not exist before
    the call, different from the previous state, and writes to no object that
    existed: the previous state object and every [FileMetadata] object are as
    they were, so each of its five observers answers after the call what it
    answered before. *)
Theorem reconcile_preserves_previous (h : Heap) (prev : loc) (old new : Program) :
  prev ∈ dom (states h) →
  let res := reconcile prev old new h in
  res.1 ∉ dom (states h) ∧ res.1 ≠ prev ∧
  states res.2 !! prev = states h !! prev ∧
  fileMetas res.2 = fileMetas h ∧
  (∀ sf, safeToSkip res.2 prev sf = safeToSkip h prev sf) ∧
  (∀ sf, getFileDependencies res.2 prev sf = getFileDependencies h prev sf) ∧
  (∀ ref, getDirectiveMetadata res.2 prev ref = getDirectiveMetadata h prev ref) ∧
  (∀ ref, getNgModuleMetadata res.2 prev ref = getNgModuleMetadata h prev ref) ∧
  (∀ ref, getPipeMetadata res.2 prev ref = getPipeMetadata h prev ref).
Proof.
  intros Hprev res.
  pose proof (reconcile_is_new prev old new h) as Hnew.
  pose proof (reconcile_frame prev old new h prev Hprev) as Hframe.
  pose proof (reconcile_fileMetas prev old new h) as Hmetas.
  fold res in Hnew, Hframe, Hmetas.
  assert (Hst : state_of res.2 prev = state_of h prev).
  { unfold state_of. by rewrite !lookup_total_alt, Hframe. }
  assert (Hmeta : ∀ m, meta_of res.2 m = meta_of h m).
  { intros m. unfold meta_of. by rewrite Hmetas. }
  split_and!; [done| |done|done|..].
  - intros Heq. by rewrite Heq in Hnew.
  - intros sf. unfold safeToSkip. by rewrite Hst.
  - intros sf. unfold getFileDependencies. rewrite Hst.
    destruct (metadata _ !! sf); [by rewrite Hmeta|done].
  - intros ref. unfold getDirectiveMetadata. rewrite Hst.
    destruct (metadata _ !! _); [by rewrite Hmeta|done].
  - intros ref. unfold getNgModuleMetadata. rewrite Hst.
    destruct (metadata _ !! _); [by rewrite Hmeta|done].
  - intros ref. unfold getPipeMetadata. rewrite Hst.
    destruct (metadata _ !! _); [by rewrite Hmeta|done].
Qed.

End State.

Notation "'do' x <- m 'in' k" := (bind m (λ x, k))
  (at level 10, x name, m at level 100, k at level 200, only parsing).

(** ** A concrete compilation history *)

(** An analysis result as far as the state looks at it. *)
Record AnalysisMeta := mkAnalysisMeta { meta_ref : Reference; meta_name : string }.

Definition app_ts := mkSourceFile 1 false.
Definition util_ts := mkSourceFile 2 false.
Definition main_ts := mkSourceFile 3 false.
Definition lib_d_ts := mkSourceFile 4 true.

Definition AppCmp := mkClassDeclaration 10 app_ts.

Definition empty_heap : @Heap AnalysisMeta AnalysisMeta AnalysisMeta := mkHeap ∅ ∅.

(** A first pass: a fresh state, in which the analysis of app.ts records a
    dependency on util.ts and a directive. *)
Definition first_pass : loc * Heap :=
  (do s <- fresh in
   do _ <- trackFileDependency s util_ts app_ts in
   do _ <- registerDirectiveMetadata meta_ref s
             (mkAnalysisMeta (mkReference AppCmp) "app-cmp") in
   ret s) empty_heap.

Definition program_1 := mkProgram [app_ts; util_ts; main_ts].
Definition program_without_util := mkProgram [app_ts; main_ts].
Definition program_with_typings := mkProgram [app_ts; util_ts; main_ts; lib_d_ts].

Example first_pass_dependencies :
  getFileDependencies first_pass.2 first_pass.1 app_ts = [util_ts].
Proof. vm_compute. reflexivity. Qed.

Example second_pass_skips :
  let res := reconcile first_pass.1 program_1 program_without_util first_pass.2 in
  map (safeToSkip res.2 res.1) [app_ts; util_ts; main_ts] = [false; false; true].
Proof. vm_compute. reflexivity. Qed.

Example second_pass_keeps_directive :
  let res := reconcile first_pass.1 program_1 program_1 first_pass.2 in
  getDirectiveMetadata res.2 res.1 (mkReference AppCmp)
  = Some (mkAnalysisMeta (mkReference AppCmp) "app-cmp").
Proof. vm_compute. reflexivity. Qed.

(** C1, as stated, fails when a typings file appears: app.ts is a file of both
    programs and its one recorded dependency is still there, yet the returned
    state is the fresh one and app.ts is not skippable. *)
Lemma unchanged_iff_as_stated_counterexample :
  ¬ unchanged_iff_as_stated first_pass.2 first_pass.1 program_1 program_with_typings.
Proof.
  intros H. specialize (H app_ts).
  assert (Hskip : safeToSkip
            (reconcile first_pass.1 program_1 program_with_typings first_pass.2).2
            (reconcile first_pass.1 program_1 program_with_typings first_pass.2).1
            app_ts = false) by (vm_compute; reflexivity).
  rewrite Hskip in H. 
  assert (Hin : app_ts ∈ getSourceFiles program_with_typings) by (simpl; set_solver).
  destruct (H Hin) as [_ H2]. 
  assert (false = true); [|done].
  apply H2. split; [simpl; set_solver|].
  replace (getFileDependencies first_pass.2 first_pass.1 app_ts) with [util_ts]
    by (vm_compute; reflexivity).
  constructor; [simpl; set_solver|constructor].
Qed.

Lemma reconcile_unchanged_iff_witness :
  (∀ d, d ∈ getSourceFiles program_without_util → isDeclarationFile d = true →
        d ∈ getSourceFiles program_1) ∧
  let res := reconcile first_pass.1 program_1 program_without_util first_pass.2 in
  (∀ f, safeToSkip res.2 res.1 f = true ↔
        f ∈ getSourceFiles program_without_util ∧ f ∈ getSourceFiles program_1 ∧
        Forall (λ d, d ∈ getSourceFiles program_without_util)
               (getFileDependencies first_pass.2 first_pass.1 f)) ∧
  (∀ f, metadata (state_of res.2 res.1) !! f =
        if safeToSkip res.2 res.1 f
        then metadata (state_of first_pass.2 first_pass.1) !! f else None) ∧
  fileMetas res.2 = fileMetas first_pass.2.
Proof.
  assert (H : ∀ d, d ∈ getSourceFiles program_without_util →
                isDeclarationFile d = true → d ∈ getSourceFiles program_1).
  { intros d Hd. simpl in *. set_solver. }
  split; [exact H|].
  exact (reconcile_unchanged_iff first_pass.2 first_pass.1 program_1
           program_without_util H).
Defined.

Lemma reconcile_new_declaration_file_witness :
  lib_d_ts ∈ getSourceFiles program_with_typings ∧
  isDeclarationFile lib_d_ts = true ∧
  lib_d_ts ∉ getSourceFiles program_1 ∧
  let res := reconcile first_pass.1 program_1 program_with_typings first_pass.2 in
  res = fresh first_pass.2 ∧
  unchangedFiles (state_of res.2 res.1) = ∅ ∧
  metadata (state_of res.2 res.1) = ∅ ∧
  ∀ f, safeToSkip res.2 res.1 f = false ∧ getFileDependencies res.2 res.1 f = [].
Proof.
  assert (H1 : lib_d_ts ∈ getSourceFiles program_with_typings) by (simpl; set_solver).
  assert (H2 : isDeclarationFile lib_d_ts = true) by reflexivity.
  assert (H3 : lib_d_ts ∉ getSourceFiles program_1) by (simpl; set_solver).
  split_and!; [exact H1|exact H2|exact H3|].
  exact (reconcile_new_declaration_file first_pass.2 first_pass.1 program_1
           program_with_typings lib_d_ts H1 H2 H3).
Defined.

Lemma reconcile_preserves_previous_witness :
  first_pass.1 ∈ dom (states first_pass.2) ∧
  let res := reconcile first_pass.1 program_1 program_without_util first_pass.2 in
  res.1 ∉ dom (states first_pass.2) ∧ res.1 ≠ first_pass.1 ∧
  states res.2 !! first_pass.1 = states first_pass.2 !! first_pass.1 ∧
  fileMetas res.2 = fileMetas first_pass.2 ∧
  (∀ sf, safeToSkip res.2 first_pass.1 sf = safeToSkip first_pass.2 first_pass.1 sf) ∧
  (∀ sf, getFileDependencies res.2 first_pass.1 sf
         = getFileDependencies first_pass.2 first_pass.1 sf) ∧
  (∀ ref, getDirectiveMetadata res.2 first_pass.1 ref
          = getDirectiveMetadata first_pass.2 first_pass.1 ref) ∧
  (∀ ref, getNgModuleMetadata res.2 first_pass.1 ref
          = getNgModuleMetadata first_pass.2 first_pass.1 ref) ∧
  (∀ ref, getPipeMetadata res.2 first_pass.1 ref
          = getPipeMetadata first_pass.2 first_pass.1 ref).
Proof.
  assert (H : first_pass.1 ∈ dom (states first_pass.2)).
  { apply (bool_decide_unpack (first_pass.1 ∈ dom (states first_pass.2))).
    vm_compute. exact I. }
  split; [exact H|].
  exact (reconcile_preserves_previous first_pass.2 first_pass.1 program_1
           program_without_util H).
Defined.

(** ** Registration and the object store *)

Section Registration.

Context {DirectiveMeta NgModuleMeta PipeMeta : Type}.
Variable directive_ref : DirectiveMeta → Reference.
Variable ngModule_ref : NgModuleMeta → Reference.
Variable pipe_ref : PipeMeta → Reference.

Local Abbreviation Heap := (@Heap DirectiveMeta NgModuleMeta PipeMeta).
Local Abbreviation FileMetadata := (@FileMetadata DirectiveMeta NgModuleMeta PipeMeta).

(** The state object [s] has the object [m] as the metadata of [f]. *)
Definition holds (h : Heap) (s : loc) (f : SourceFile) (m : loc) : Prop :=
  metadata (state_of h s) !! f = Some m.

(** The store the methods of the class build: the metadata objects the states
    point to are allocated, one object is the metadata of one file only
    (states may share it), and the dependencies of an object are a set. *)
Record heap_wf (h : Heap) : Prop := mkHeapWf {
  wf_allocated : ∀ s f m, holds h s f m → m ∈ dom (fileMetas h);
  wf_one_file : ∀ s1 s2 f g m, holds h s1 f m → holds h s2 g m → f = g;
  wf_NoDup : ∀ m, NoDup (fileDependencies (meta_of h m))
}.

(** What an observer reads of the metadata of [f] in [s]: a view [π] of the
    object, or of an empty one when the state has none. *)
Definition observe {A} (π : FileMetadata → A) (h : Heap) (s : loc) (f : SourceFile) : A :=
  π (match metadata (state_of h s) !! f with
     | Some m => meta_of h m
     | None => new_FileMetadata
     end).

(** The store after [ensureMetadata this sf] followed by the update [g] of
    the object it returned. *)
Definition touched (this : loc) (sf : SourceFile) (g : FileMetadata → FileMetadata)
    (h h' : Heap) : Prop :=
  ∃ m fm0,
    h' = mkHeap (<[this := mkIncrementalState (unchangedFiles (state_of h this))
                             (<[sf := m]> (metadata (state_of h this)))]> (states h))
                (<[m := g fm0]> (fileMetas h)) ∧
    ((holds h this sf m ∧ fm0 = meta_of h m) ∨
     (metadata (state_of h this) !! sf = None ∧ m ∉ dom (fileMetas h) ∧
      fm0 = new_FileMetadata)).

Lemma jsset_add_spec `{EqDecision A} (x y : A) (s : list A) :
  x ∈ jsset_add y s ↔ x = y ∨ x ∈ s.
Proof.
  unfold jsset_add. case_bool_decide as Hy.
  - split; [auto|]. by intros [->|?].
  - rewrite elem_of_app, list_elem_of_singleton. tauto.
Qed.

Lemma jsset_add_NoDup `{EqDecision A} (y : A) (s : list A) :
  NoDup s → NoDup (jsset_add y s).
Proof.
  unfold jsset_add. case_bool_decide as Hy; [done|]. intros Hs.
  apply NoDup_app. split_and!; [done| |apply NoDup_singleton].
  intros x Hx ->%list_elem_of_singleton. done.
Qed.

Lemma jsset_add_idemp `{EqDecision A} (y : A) (s : list A) :
  jsset_add y (jsset_add y s) = jsset_add y s.
Proof.
  unfold jsset_add at 1. rewrite bool_decide_eq_true_2; [done|].
  apply jsset_add_spec. by left.
Qed.

Lemma ensure_then_update_touched this sf (g : FileMetadata → FileMetadata) (h : Heap) :
  touched this sf g h ((do m <- ensureMetadata this sf in update_meta m g) h).2.
Proof.
  unfold bind, ensureMetadata, touched, holds.
  destruct (metadata (state_of h this) !! sf) as [m|] eqn:Hm.
  - exists m, (meta_of h m). split; [|by left]. done.
  - exists (base.fresh (dom (fileMetas h))), new_FileMetadata. split.
    + unfold bind, alloc_FileMetadata, set_metadata, update_meta, ret, meta_of, state_of.
      simpl. by rewrite lookup_total_insert_eq, insert_insert_eq.
    + right. split_and!; [done|apply is_fresh|done].
Qed.

Lemma touched_state_of this sf g h h' s :
  touched this sf g h h' →
  unchangedFiles (state_of h' s) = unchangedFiles (state_of h s) ∧
  ∀ f, f ≠ sf ∨ s ≠ this →
       metadata (state_of h' s) !! f = metadata (state_of h s) !! f.
Proof.
  intros (m & fm0 & -> & _). unfold state_of; simpl.
  destruct (decide (this = s)) as [->|Hne].
  - rewrite lookup_total_insert_eq. simpl. split; [done|].
    intros f [Hf|Hs]; [by rewrite lookup_insert_ne|done].
  - rewrite lookup_total_insert_ne by done. done.
Qed.

(** An observer whose view the update does not change reads the same
    thing after; an observer of another file reads the same thing whatever
    the update is. *)
Lemma touched_observe {A} (π : FileMetadata → A) this sf g (h h' : Heap) s f :
  heap_wf h → touched this sf g h h' →
  (f = sf → ∀ fm, π (g fm) = π fm) →
  observe π h' s f = observe π h s f.
Proof.
  intros Hwf (m & fm0 & -> & Hcase) Hview. unfold observe, state_of, meta_of; simpl.
  assert (Hother : ∀ s' f' m', holds h s' f' m' → f' ≠ sf → m' ≠ m).
  { intros s' f' m' Hh Hf ->. destruct Hcase as [[Hm _]|(_ & Hfresh & _)].
    - by apply Hf, (wf_one_file _ Hwf s' this f' sf m).
    - by apply Hfresh, (wf_allocated _ Hwf s' f'). }
  assert (Hfm0 : π (g fm0) = π fm0 → ∀ s', holds h s' sf m →
                 π (g fm0) = π (fileMetas h !!! m)).
  { intros Hπ s' Hh. rewrite Hπ. destruct Hcase as [[_ ->]|(_ & Hfresh & _)]; [done|].
    destruct Hfresh. by apply (wf_allocated _ Hwf s' sf). }
  destruct (decide (this = s)) as [->|Hs].
  - rewrite lookup_total_insert_eq. simpl.
    destruct (decide (f = sf)) as [->|Hf].
    + rewrite lookup_insert_eq, lookup_total_insert_eq, Hview by done.
      destruct Hcase as [[Hm ->]|(Hnone & _ & ->)].
      * unfold holds, state_of in Hm. by rewrite Hm.
      * unfold state_of in Hnone. by rewrite Hnone.
    + rewrite lookup_insert_ne by done.
      destruct (_ !! f) as [m'|] eqn:Hm'; [|done].
      rewrite lookup_total_insert_ne; [done|]. intros <-.
      by apply (Hother s f m).
  - rewrite lookup_total_insert_ne by done.
    destruct (_ !! f) as [m'|] eqn:Hm'; [|done].
    destruct (decide (m = m')) as [<-|Hm].
    + rewrite lookup_total_insert_eq.
      destruct (decide (f = sf)) as [->|Hf]; [|by destruct (Hother s f m)].
      by apply (Hfm0 (Hview eq_refl fm0) s).
    + by rewrite lookup_total_insert_ne.
Qed.

Lemma touched_wf this sf g (h h' : Heap) :
  (∀ fm, NoDup (fileDependencies fm) → NoDup (fileDependencies (g fm))) →
  heap_wf h → touched this sf g h h' → heap_wf h'.
Proof.
  intros Hg Hwf (m & fm0 & -> & Hcase).
  assert (Hholds : ∀ s f m', holds (mkHeap
             (<[this := mkIncrementalState (unchangedFiles (state_of h this))
                          (<[sf := m]> (metadata (state_of h this)))]> (states h))
             (<[m := g fm0]> (fileMetas h))) s f m' →
           (f = sf ∧ m' = m) ∨ holds h s f m').
  { intros s f m'. unfold holds, state_of; simpl.
    destruct (decide (this = s)) as [->|Hs].
    - rewrite lookup_total_insert_eq. simpl.
      destruct (decide (f = sf)) as [->|Hf].
      + rewrite lookup_insert_eq. intros [= <-]. by left.
      + rewrite lookup_insert_ne by done. by right.
    - rewrite lookup_total_insert_ne by done. by right. }
  assert (Hm : ∀ s f, holds h s f m → f = sf).
  { intros s f Hh. destruct Hcase as [[Hm _]|(_ & Hfresh & _)].
    - by apply (wf_one_file _ Hwf s this f sf m).
    - destruct Hfresh. by apply (wf_allocated _ Hwf s f). }
  split.
  - intros s f m' [[_ ->]|Hh]%Hholds; simpl; rewrite dom_insert_L; [set_solver|].
    apply elem_of_union_r. by apply (wf_allocated _ Hwf s f).
  - intros s1 s2 f1 f2 m' [[-> ->]|H1]%Hholds [[-> Heq]|H2]%Hholds; try done.
    + symmetry. by apply (Hm s2).
    + subst m'. by apply (Hm s1).
    + by apply (wf_one_file _ Hwf s1 s2 f1 f2 m').
  - intros m'. unfold meta_of; simpl.
    destruct (decide (m = m')) as [<-|Hne].
    + rewrite lookup_total_insert_eq. apply Hg.
      destruct Hcase as [[_ ->]|(_ & _ & ->)]; [apply Hwf|apply NoDup_nil_2].
    + rewrite lookup_total_insert_ne by done. apply Hwf.
Qed.

(** The four registration methods are [ensureMetadata] followed by an update
    of the object it returns. *)
Definition add_dependency (dep : SourceFile) (fm : FileMetadata) : FileMetadata :=
  mkFileMetadata (jsset_add dep (fileDependencies fm))
    (directiveMeta fm) (ngModuleMeta fm) (pipeMeta fm).

Lemma trackFileDependency_touched this dep src (h : Heap) :
  touched this src (add_dependency dep) h (trackFileDependency this dep src h).2.
Proof. apply ensure_then_update_touched. Qed.

Lemma registerDirectiveMetadata_touched this meta (h : Heap) :
  touched this (getSourceFile (node (directive_ref meta)))
    (λ fm, mkFileMetadata (fileDependencies fm)
             (<[node (directive_ref meta) := meta]> (directiveMeta fm))
             (ngModuleMeta fm) (pipeMeta fm))
    h (registerDirectiveMetadata directive_ref this meta h).2.
Proof. apply ensure_then_update_touched. Qed.

Lemma registerNgModuleMetadata_touched this meta (h : Heap) :
  touched this (getSourceFile (node (ngModule_ref meta)))
    (λ fm, mkFileMetadata (fileDependencies fm) (directiveMeta fm)
             (<[node (ngModule_ref meta) := meta]> (ngModuleMeta fm)) (pipeMeta fm))
    h (registerNgModuleMetadata ngModule_ref this meta h).2.
Proof. apply ensure_then_update_touched. Qed.

Lemma registerPipeMetadata_touched this meta (h : Heap) :
  touched this (getSourceFile (node (pipe_ref meta)))
    (λ fm, mkFileMetadata (fileDependencies fm) (directiveMeta fm)
             (ngModuleMeta fm) (<[node (pipe_ref meta) := meta]> (pipeMeta fm)))
    h (registerPipeMetadata pipe_ref this meta h).2.
Proof. apply ensure_then_update_touched. Qed.

(** The getters are observers. *)
Lemma getFileDependencies_observe (h : Heap) s f :
  getFileDependencies h s f = observe fileDependencies h s f.
Proof. unfold getFileDependencies, observe. by destruct (_ !! f). Qed.

Lemma getDirectiveMetadata_observe (h : Heap) s ref :
  getDirectiveMetadata h s ref
  = observe (λ fm, directiveMeta fm !! node ref) h s (getSourceFile (node ref)).
Proof. unfold getDirectiveMetadata, observe. by destruct (_ !! getSourceFile _). Qed.

Lemma getNgModuleMetadata_observe (h : Heap) s ref :
  getNgModuleMetadata h s ref
  = observe (λ fm, ngModuleMeta fm !! node ref) h s (getSourceFile (node ref)).
Proof. unfold getNgModuleMetadata, observe. by destruct (_ !! getSourceFile _). Qed.

Lemma getPipeMetadata_observe (h : Heap) s ref :
  getPipeMetadata h s ref
  = observe (λ fm, pipeMeta fm !! node ref) h s (getSourceFile (node ref)).
Proof. unfold getPipeMetadata, observe. by destruct (_ !! getSourceFile _). Qed.

(** What the object of the touched file holds after. *)
Lemma touched_observe_self {A} (π : FileMetadata → A) this sf g (h h' : Heap) :
  touched this sf g h h' →
  ∃ fm0, observe π h' this sf = π (g fm0) ∧ ∀ B (ρ : FileMetadata → B),
         observe ρ h this sf = ρ fm0.
Proof.
  intros (m & fm0 & -> & Hcase). exists fm0. unfold observe, state_of, meta_of; simpl.
  rewrite lookup_total_insert_eq. simpl. rewrite lookup_insert_eq, lookup_total_insert_eq.
  split; [done|]. intros B ρ.
  destruct Hcase as [[Hm ->]|(Hnone & _ & ->)].
  - unfold holds, state_of in Hm. by rewrite Hm.
  - unfold state_of in Hnone. by rewrite Hnone.
Qed.

(** The returned state of [reconcile] as the constructor call it ends with. *)
Lemma reconcile_as_new prev old new (h : Heap) :
  ∃ u md,
    reconcile prev old new h = new_IncrementalState u md h ∧
    (∀ f, md !! f = if bool_decide (f ∈ u)
                    then metadata (state_of h prev) !! f else None) ∧
    (∀ f, f ∈ u → f ∈ getSourceFiles new ∧ f ∈ getSourceFiles old ∧
                  deps_present h prev (list_to_set (getSourceFiles new)) f = true).
Proof.
  unfold reconcile.
  destruct (reconcile_loop _ _ _ _ _ _ _) as [[u md]|] eqn:Hloop.
  - exists u, md. split_and!; [done|by eapply reconcile_loop_metadata_init|].
    intros f Hf. apply (reconcile_loop_unchanged _ _ _ _ _ _ _ _ _ Hloop) in Hf
      as [Hf|(Hn & Ho & Hd)]; [by apply not_elem_of_empty in Hf|].
    by rewrite !elem_of_list_to_set in Ho.
  - exists ∅, ∅. split_and!; [done| |intros f Hf; by apply not_elem_of_empty in Hf].
    intros f. rewrite lookup_empty. by case_bool_decide.
Qed.

Lemma new_IncrementalState_state_of u md (h : Heap) s :
  state_of (new_IncrementalState u md h).2 s
  = if decide ((new_IncrementalState u md h).1 = s)
    then mkIncrementalState u md else state_of h s.
Proof. unfold state_of, new_IncrementalState; simpl. apply lookup_total_insert. Qed.

Lemma new_IncrementalState_wf u md (h : Heap) :
  heap_wf h → (∀ f m, md !! f = Some m → ∃ s, holds h s f m) →
  heap_wf (new_IncrementalState u md h).2.
Proof.
  intros Hwf Hmd.
  assert (Hholds : ∀ s f m, holds (new_IncrementalState u md h).2 s f m →
                            ∃ s0, holds h s0 f m).
  { intros s f m. unfold holds. rewrite new_IncrementalState_state_of.
    case_decide; [apply Hmd|eauto]. }
  split.
  - intros s f m [s0 Hh]%Hholds. by apply (wf_allocated _ Hwf s0 f).
  - intros s1 s2 f g m [s1' H1]%Hholds [s2' H2]%Hholds.
    by apply (wf_one_file _ Hwf s1' s2' f g m).
  - apply Hwf.
Qed.

Lemma empty_heap_wf : heap_wf (mkHeap ∅ ∅).
Proof.
  split.
  - intros s f m. unfold holds, state_of; simpl.
    by rewrite lookup_total_empty.
  - intros s1 s2 f g m. unfold holds, state_of; simpl.
    by rewrite lookup_total_empty.
  - intros m. unfold meta_of; simpl. rewrite lookup_total_empty. apply NoDup_nil_2.
Qed.

Lemma fresh_wf (h : Heap) : heap_wf h → heap_wf (fresh h).2.
Proof. intros Hwf. by apply new_IncrementalState_wf. Qed.

Lemma reconcile_wf prev old new (h : Heap) :
  heap_wf h → heap_wf (reconcile prev old new h).2.
Proof.
  intros Hwf. destruct (reconcile_as_new prev old new h) as (u & md & -> & Hmd & _).
  apply new_IncrementalState_wf; [done|]. intros f m Hf. exists prev.
  rewrite Hmd in Hf. by case_bool_decide.
Qed.

Lemma trackFileDependency_wf this dep src (h : Heap) :
  heap_wf h → heap_wf (trackFileDependency this dep src h).2.
Proof.
  intros Hwf. eapply touched_wf; [|done|apply trackFileDependency_touched].
  intros fm. apply jsset_add_NoDup.
Qed.

Lemma registerDirectiveMetadata_wf this meta (h : Heap) :
  heap_wf h → heap_wf (registerDirectiveMetadata directive_ref this meta h).2.
Proof.
  intros Hwf. by eapply touched_wf; [|done|apply registerDirectiveMetadata_touched].
Qed.

Lemma registerNgModuleMetadata_wf this meta (h : Heap) :
  heap_wf h → heap_wf (registerNgModuleMetadata ngModule_ref this meta h).2.
Proof.
  intros Hwf. by eapply touched_wf; [|done|apply registerNgModuleMetadata_touched].
Qed.

Lemma registerPipeMetadata_wf this meta (h : Heap) :
  heap_wf h → heap_wf (registerPipeMetadata pipe_ref this meta h).2.
Proof.
  intros Hwf. by eapply touched_wf; [|done|apply registerPipeMetadata_touched].
Qed.

Lemma trackFileDependency_step this dep src (h : Heap) :
  getFileDependencies (trackFileDependency this dep src h).2 this src
  = jsset_add dep (getFileDependencies h this src).
Proof.
  rewrite !getFileDependencies_observe.
  destruct (touched_observe_self fileDependencies this src _ h _
              (trackFileDependency_touched this dep src h)) as (fm0 & -> & Hold).
  by rewrite Hold.
Qed.

(** X1: after [trackFileDependency(dep, src)] the dependencies of [src] are
    the ones it had with [dep] added as to a set: [dep] is among them, at the
    end when it is new, and tracking it once more changes nothing. *)
Theorem trackFileDependency_records (h : Heap) (this : loc) (dep src : SourceFile) :
  let h' := (trackFileDependency this dep src h).2 in
  getFileDependencies h' this src = jsset_add dep (getFileDependencies h this src) ∧
  dep ∈ getFileDependencies h' this src ∧
  getFileDependencies (trackFileDependency this dep src h').2 this src
  = getFileDependencies h' this src.
Proof.
  intros h'. split_and!.
  - apply trackFileDependency_step.
  - subst h'. rewrite trackFileDependency_step. apply jsset_add_spec. by left.
  - subst h'. rewrite !trackFileDependency_step. apply jsset_add_idemp.
Qed.

(** X2: the store invariant (the metadata objects the states point to are
    allocated, an object is the metadata of one file only, dependencies hold
    no duplicate) is kept by [fresh], [reconcile], [trackFileDependency] and
    the three register methods; in such a store [getFileDependencies] returns
    no duplicate. *)
Theorem store_invariant_kept (h : Heap) :
  heap_wf h →
  heap_wf (fresh h).2 ∧
  (∀ prev old new, heap_wf (reconcile prev old new h).2) ∧
  (∀ this dep src, heap_wf (trackFileDependency this dep src h).2) ∧
  (∀ this meta, heap_wf (registerDirectiveMetadata directive_ref this meta h).2) ∧
  (∀ this meta, heap_wf (registerNgModuleMetadata ngModule_ref this meta h).2) ∧
  (∀ this meta, heap_wf (registerPipeMetadata pipe_ref this meta h).2) ∧
  (∀ s f, NoDup (getFileDependencies h s f)).
Proof.
  intros Hwf. split_and!.
  - by apply fresh_wf.
  - intros. by apply reconcile_wf.
  - intros. by apply trackFileDependency_wf.
  - intros. by apply registerDirectiveMetadata_wf.
  - intros. by apply registerNgModuleMetadata_wf.
  - intros. by apply registerPipeMetadata_wf.
  - intros s f. unfold getFileDependencies.
    destruct (_ !! f); [apply Hwf|apply NoDup_nil_2].
Qed.

(** X3: in a store that satisfies the invariant, [trackFileDependency(dep,
    src)] changes, for every state object, neither what is safe to skip, nor
    the dependencies of a file other than [src], nor any directive, module or
    pipe metadata. *)
Theorem trackFileDependency_frame (h : Heap) (this : loc) (dep src : SourceFile) :
  heap_wf h →
  let h' := (trackFileDependency this dep src h).2 in
  ∀ s,
    (∀ f, safeToSkip h' s f = safeToSkip h s f) ∧
    (∀ f, f ≠ src → getFileDependencies h' s f = getFileDependencies h s f) ∧
    (∀ ref, getDirectiveMetadata h' s ref = getDirectiveMetadata h s ref) ∧
    (∀ ref, getNgModuleMetadata h' s ref = getNgModuleMetadata h s ref) ∧
    (∀ ref, getPipeMetadata h' s ref = getPipeMetadata h s ref).
Proof.
  intros Hwf h' s.
  pose proof (trackFileDependency_touched this dep src h) as Ht. fold h' in Ht.
  split_and!.
  - intros f. unfold safeToSkip.
    by rewrite (proj1 (touched_state_of _ _ _ _ _ s Ht)).
  - intros f Hf. rewrite !getFileDependencies_observe.
    by apply (touched_observe _ _ _ _ _ _ _ _ Hwf Ht).
  - intros ref. rewrite !getDirectiveMetadata_observe.
    by apply (touched_observe _ _ _ _ _ _ _ _ Hwf Ht).
  - intros ref. rewrite !getNgModuleMetadata_observe.
    by apply (touched_observe _ _ _ _ _ _ _ _ Hwf Ht).
  - intros ref. rewrite !getPipeMetadata_observe.
    by apply (touched_observe _ _ _ _ _ _ _ _ Hwf Ht).
Qed.

(** X4: what a register method stores, the getter of the same kind returns
    for the reference of the stored metadata. *)
Theorem register_then_get (h : Heap) (this : loc)
    (d : DirectiveMeta) (n : NgModuleMeta) (p : PipeMeta) :
  getDirectiveMetadata (registerDirectiveMetadata directive_ref this d h).2 this
    (directive_ref d) = Some d ∧
  getNgModuleMetadata (registerNgModuleMetadata ngModule_ref this n h).2 this
    (ngModule_ref n) = Some n ∧
  getPipeMetadata (registerPipeMetadata pipe_ref this p h).2 this
    (pipe_ref p) = Some p.
Proof.
  split_and!.
  - rewrite getDirectiveMetadata_observe.
    destruct (touched_observe_self (λ fm, directiveMeta fm !! node (directive_ref d))
                this _ _ h _ (registerDirectiveMetadata_touched this d h))
      as (fm0 & -> & _). simpl. apply lookup_insert_eq.
  - rewrite getNgModuleMetadata_observe.
    destruct (touched_observe_self (λ fm, ngModuleMeta fm !! node (ngModule_ref n))
                this _ _ h _ (registerNgModuleMetadata_touched this n h))
      as (fm0 & -> & _). simpl. apply lookup_insert_eq.
  - rewrite getPipeMetadata_observe.
    destruct (touched_observe_self (λ fm, pipeMeta fm !! node (pipe_ref p))
                this _ _ h _ (registerPipeMetadata_touched this p h))
      as (fm0 & -> & _). simpl. apply lookup_insert_eq.
Qed.

(** What a store [h'] leaves as it was in [h]: what is safe to skip and the
    dependencies of every file, in every state object. *)
Definition same_files (h h' : Heap) : Prop :=
  ∀ s f, safeToSkip h' s f = safeToSkip h s f ∧
         getFileDependencies h' s f = getFileDependencies h s f.

(** X5: in a store that satisfies the invariant, registering the metadata of
    a class changes, for every state object, neither what is safe to skip,
    nor any dependency list, nor the metadata of the two other kinds, nor the
    metadata of that kind of any other class. *)
Theorem register_frame (h : Heap) (this : loc)
    (d : DirectiveMeta) (n : NgModuleMeta) (p : PipeMeta) :
  heap_wf h →
  (let h' := (registerDirectiveMetadata directive_ref this d h).2 in
   same_files h h' ∧
   (∀ s ref, getNgModuleMetadata h' s ref = getNgModuleMetadata h s ref ∧
             getPipeMetadata h' s ref = getPipeMetadata h s ref) ∧
   (∀ s ref, node ref ≠ node (directive_ref d) →
             getDirectiveMetadata h' s ref = getDirectiveMetadata h s ref)) ∧
  (let h' := (registerNgModuleMetadata ngModule_ref this n h).2 in
   same_files h h' ∧
   (∀ s ref, getDirectiveMetadata h' s ref = getDirectiveMetadata h s ref ∧
             getPipeMetadata h' s ref = getPipeMetadata h s ref) ∧
   (∀ s ref, node ref ≠ node (ngModule_ref n) →
             getNgModuleMetadata h' s ref = getNgModuleMetadata h s ref)) ∧
  (let h' := (registerPipeMetadata pipe_ref this p h).2 in
   same_files h h' ∧
   (∀ s ref, getDirectiveMetadata h' s ref = getDirectiveMetadata h s ref ∧
             getNgModuleMetadata h' s ref = getNgModuleMetadata h s ref) ∧
   (∀ s ref, node ref ≠ node (pipe_ref p) →
             getPipeMetadata h' s ref = getPipeMetadata h s ref)).
Proof.
  intros Hwf.
  assert (Hfiles : ∀ sf g (h' : Heap), touched this sf g h h' →
            (∀ fm, fileDependencies (g fm) = fileDependencies fm) → same_files h h').
  { intros sf g h' Ht Hg s f. split.
    - unfold safeToSkip. by rewrite (proj1 (touched_state_of _ _ _ _ _ s Ht)).
    - rewrite !getFileDependencies_observe.
      by apply (touched_observe _ _ _ _ _ _ _ _ Hwf Ht). }
  split_and!; cbv zeta; split_and!.
  - by eapply Hfiles; [apply registerDirectiveMetadata_touched|].
  - intros s ref. rewrite !getNgModuleMetadata_observe, !getPipeMetadata_observe.
    split; by apply (touched_observe _ _ _ _ _ _ _ _ Hwf
                       (registerDirectiveMetadata_touched this d h)).
  - intros s ref Hne. rewrite !getDirectiveMetadata_observe.
    apply (touched_observe _ _ _ _ _ _ _ _ Hwf
             (registerDirectiveMetadata_touched this d h)).
    intros _ fm. simpl. by apply lookup_insert_ne.
  - by eapply Hfiles; [apply registerNgModuleMetadata_touched|].
  - intros s ref. rewrite !getDirectiveMetadata_observe, !getPipeMetadata_observe.
    split; by apply (touched_observe _ _ _ _ _ _ _ _ Hwf
                       (registerNgModuleMetadata_touched this n h)).
  - intros s ref Hne. rewrite !getNgModuleMetadata_observe.
    apply (touched_observe _ _ _ _ _ _ _ _ Hwf
             (registerNgModuleMetadata_touched this n h)).
    intros _ fm. simpl. by apply lookup_insert_ne.
  - by eapply Hfiles; [apply registerPipeMetadata_touched|].
  - intros s ref. rewrite !getDirectiveMetadata_observe, !getNgModuleMetadata_observe.
    split; by apply (touched_observe _ _ _ _ _ _ _ _ Hwf
                       (registerPipeMetadata_touched this p h)).
  - intros s ref Hne. rewrite !getPipeMetadata_observe.
    apply (touched_observe _ _ _ _ _ _ _ _ Hwf
             (registerPipeMetadata_touched this p h)).
    intros _ fm. simpl. by apply lookup_insert_ne.
Qed.

(** X6: [reconcile] copies references, not objects: a file it marks unchanged
    has, in the new state, the very metadata object of the previous state, so
    a dependency tracked through the new state is seen through the previous
    one too. *)
Theorem reconcile_shares_metadata (h : Heap) (prev : loc) (old new : Program)
    (f dep : SourceFile) (m : loc) :
  prev ∈ dom (states h) →
  holds h prev f m →
  safeToSkip (reconcile prev old new h).2 (reconcile prev old new h).1 f = true →
  let res := reconcile prev old new h in
  let h2 := (trackFileDependency res.1 dep f res.2).2 in
  holds res.2 res.1 f m ∧
  getFileDependencies h2 res.1 f = jsset_add dep (getFileDependencies h prev f) ∧
  getFileDependencies h2 prev f = jsset_add dep (getFileDependencies h prev f).
Proof.
  intros Hprev Hm Hskip res h2.
  destruct (reconcile_as_new prev old new h) as (u & md & Hres & Hmd & _).
  assert (Hne : res.1 ≠ prev).
  { intros Heq. apply (reconcile_is_new prev old new h). by rewrite <- Heq in Hprev. }
  assert (Hst : state_of res.2 res.1 = mkIncrementalState u md).
  { subst res. rewrite Hres. apply state_of_new_IncrementalState. }
  assert (Hprev' : state_of res.2 prev = state_of h prev).
  { subst res. rewrite Hres in Hne |- *. rewrite new_IncrementalState_state_of.
    by rewrite decide_False. }
  assert (Hmetas : fileMetas res.2 = fileMetas h) by apply reconcile_fileMetas.
  assert (Hnew : holds res.2 res.1 f m).
  { unfold holds. rewrite Hst. simpl. rewrite Hmd.
    unfold safeToSkip in Hskip. fold res in Hskip. rewrite Hst in Hskip. simpl in Hskip.
    by rewrite Hskip. }
  assert (Hdeps : getFileDependencies res.2 res.1 f = getFileDependencies h prev f).
  { unfold getFileDependencies, meta_of. unfold holds in Hnew, Hm.
    by rewrite Hnew, Hm, Hmetas. }
  split_and!; [done| |].
  - subst h2. by rewrite trackFileDependency_step, Hdeps.
  - subst h2.
    destruct (trackFileDependency_touched res.1 dep f res.2)
      as (m' & fm0 & -> & [[Hm' ->]|(Hnone & _)]).
    + unfold holds in Hm', Hnew, Hm. rewrite Hnew in Hm'. injection Hm' as <-.
      unfold getFileDependencies at 1. unfold state_of at 1. simpl.
      rewrite lookup_total_insert_ne by done. fold (state_of res.2 prev).
      rewrite Hprev', Hm. unfold meta_of at 1. simpl.
      rewrite lookup_total_insert_eq. simpl.
      unfold getFileDependencies, meta_of. by rewrite Hm, Hmetas.
    + unfold holds in Hnew. by rewrite Hnew in Hnone.
Qed.

(** X7: whatever the two programs, a file [reconcile] marks as safe to skip is
    a file of both and all the dependencies the previous state records for it
    are files of the new program, and its metadata entry is the one of the
    previous state; a file it does not mark has no metadata in the result. *)
Theorem reconcile_skips_only_unchanged (h : Heap) (prev : loc) (old new : Program)
    (f : SourceFile) :
  let res := reconcile prev old new h in
  if safeToSkip res.2 res.1 f
  then f ∈ getSourceFiles new ∧ f ∈ getSourceFiles old ∧
       Forall (λ d, d ∈ getSourceFiles new) (getFileDependencies h prev f) ∧
       metadata (state_of res.2 res.1) !! f = metadata (state_of h prev) !! f
  else metadata (state_of res.2 res.1) !! f = None ∧
       getFileDependencies res.2 res.1 f = [].
Proof.
  intros res.
  destruct (reconcile_as_new prev old new h) as (u & md & Hres & Hmd & Hu).
  assert (Hst : state_of res.2 res.1 = mkIncrementalState u md).
  { subst res. rewrite Hres. apply state_of_new_IncrementalState. }
  unfold safeToSkip, getFileDependencies. rewrite Hst. simpl. rewrite Hmd.
  case_bool_decide as Hf; [|done].
  destruct (Hu f Hf) as (Hn & Ho & Hd). split_and!; [done..| |done].
  apply deps_present_Forall in Hd. eapply Forall_impl; [exact Hd|].
  intros d. by rewrite elem_of_list_to_set.
Qed.

(** X8: [reconcile] reads the two programs as sets of files: programs that
    list the same files, in any order and with any repetition, give the same
    returned state and the same store. *)
Theorem reconcile_order_irrelevant (h : Heap) (prev : loc) (old1 old2 new1 new2 : Program) :
  (∀ f, f ∈ getSourceFiles old1 ↔ f ∈ getSourceFiles old2) →
  (∀ f, f ∈ getSourceFiles new1 ↔ f ∈ getSourceFiles new2) →
  reconcile prev old1 new1 h = reconcile prev old2 new2 h.
Proof.
  intros Hold Hnew. unfold reconcile.
  assert (HO : (list_to_set (getSourceFiles old1) : gset SourceFile)
               = list_to_set (getSourceFiles old2)).
  { apply set_eq. intros f. by rewrite !elem_of_list_to_set. }
  assert (HN : (list_to_set (getSourceFiles new1) : gset SourceFile)
               = list_to_set (getSourceFiles new2)).
  { apply set_eq. intros f. by rewrite !elem_of_list_to_set. }
  rewrite HO, HN.
  destruct (reconcile_loop h prev _ _ (getSourceFiles new1) ∅ ∅) as [[u1 md1]|] eqn:H1;
    destruct (reconcile_loop h prev _ _ (getSourceFiles new2) ∅ ∅) as [[u2 md2]|] eqn:H2.
  - assert (Hu : u1 = u2).
    { apply set_eq. intros f.
      rewrite (reconcile_loop_unchanged _ _ _ _ _ _ _ _ _ H1 f),
        (reconcile_loop_unchanged _ _ _ _ _ _ _ _ _ H2 f), Hnew. done. }
    subst u2. f_equal. apply map_eq. intros f.
    by rewrite (reconcile_loop_metadata_init _ _ _ _ _ _ _ H1 f),
      (reconcile_loop_metadata_init _ _ _ _ _ _ _ H2 f).
  - apply reconcile_loop_None in H2 as (d & Hd & Hrest).
    assert (Hnone : reconcile_loop h prev (list_to_set (getSourceFiles old2))
              (list_to_set (getSourceFiles new2)) (getSourceFiles new1) ∅ ∅ = None).
    { apply reconcile_loop_None. exists d. by rewrite Hnew. }
    by rewrite Hnone in H1.
  - apply reconcile_loop_None in H1 as (d & Hd & Hrest).
    assert (Hnone : reconcile_loop h prev (list_to_set (getSourceFiles old2))
              (list_to_set (getSourceFiles new2)) (getSourceFiles new2) ∅ ∅ = None).
    { apply reconcile_loop_None. exists d. by rewrite <- Hnew. }
    by rewrite Hnone in H2.
  - done.
Qed.

End Registration.

(** ** The invariant and the sharing on the concrete history *)

Lemma first_pass_wf : heap_wf first_pass.2.
Proof.
  unfold first_pass, bind, ret.
  destruct (fresh empty_heap) as [s h1] eqn:E1.
  destruct (trackFileDependency s util_ts app_ts h1) as [u h2] eqn:E2.
  destruct (registerDirectiveMetadata meta_ref s
              (mkAnalysisMeta (mkReference AppCmp) "app-cmp") h2) as [v h3] eqn:E3.
  simpl.
  replace h3 with (registerDirectiveMetadata meta_ref s
                     (mkAnalysisMeta (mkReference AppCmp) "app-cmp") h2).2
    by (by rewrite E3).
  apply registerDirectiveMetadata_wf.
  replace h2 with (trackFileDependency s util_ts app_ts h1).2 by (by rewrite E2).
  apply trackFileDependency_wf.
  replace h1 with (fresh empty_heap).2 by (by rewrite E1).
  apply fresh_wf, empty_heap_wf.
Qed.

Lemma store_invariant_kept_witness :
  heap_wf first_pass.2 ∧
  heap_wf (reconcile first_pass.1 program_1 program_without_util first_pass.2).2 ∧
  NoDup (getFileDependencies first_pass.2 first_pass.1 app_ts).
Proof.
  pose proof first_pass_wf as H.
  destruct (store_invariant_kept meta_ref meta_ref meta_ref first_pass.2 H)
    as (_ & Hrec & _ & _ & _ & _ & Hnd).
  split_and!; [exact H|apply Hrec|apply Hnd].
Defined.

Lemma trackFileDependency_frame_witness :
  heap_wf first_pass.2 ∧
  let h' := (trackFileDependency first_pass.1 main_ts util_ts first_pass.2).2 in
  getFileDependencies h' first_pass.1 app_ts = [util_ts] ∧
  getDirectiveMetadata h' first_pass.1 (mkReference AppCmp)
  = getDirectiveMetadata first_pass.2 first_pass.1 (mkReference AppCmp).
Proof.
  pose proof first_pass_wf as H. split; [exact H|]. intros h'.
  destruct (trackFileDependency_frame first_pass.2 first_pass.1 main_ts util_ts H
              first_pass.1) as (_ & Hdeps & Hdir & _).
  split; [|apply Hdir].
  fold h' in Hdeps. rewrite (Hdeps app_ts ltac:(discriminate)).
  vm_compute. reflexivity.
Defined.

Lemma register_frame_witness :
  heap_wf first_pass.2 ∧
  let meta := mkAnalysisMeta (mkReference (mkClassDeclaration 11 util_ts)) "util-dir" in
  let h' := (registerDirectiveMetadata meta_ref first_pass.1 meta first_pass.2).2 in
  same_files first_pass.2 h' ∧
  getDirectiveMetadata h' first_pass.1 (mkReference AppCmp)
  = getDirectiveMetadata first_pass.2 first_pass.1 (mkReference AppCmp).
Proof.
  pose proof first_pass_wf as H. split; [exact H|]. intros meta h'.
  destruct (register_frame meta_ref meta_ref meta_ref first_pass.2 first_pass.1
              meta meta meta H) as ((Hfiles & _ & Hdir) & _).
  split; [exact Hfiles|]. apply Hdir. discriminate.
Defined.

Lemma reconcile_shares_metadata_witness :
  first_pass.1 ∈ dom (states first_pass.2) ∧
  holds first_pass.2 first_pass.1 app_ts 1 ∧
  let res := reconcile first_pass.1 program_1 program_1 first_pass.2 in
  safeToSkip res.2 res.1 app_ts = true ∧
  let h2 := (trackFileDependency res.1 main_ts app_ts res.2).2 in
  getFileDependencies h2 first_pass.1 app_ts = [util_ts; main_ts].
Proof.
  assert (H1 : first_pass.1 ∈ dom (states first_pass.2)).
  { apply (bool_decide_unpack (first_pass.1 ∈ dom (states first_pass.2))).
    vm_compute. exact I. }
  assert (H2 : holds first_pass.2 first_pass.1 app_ts 1) by (vm_compute; reflexivity).
  assert (H3 : safeToSkip
            (reconcile first_pass.1 program_1 program_1 first_pass.2).2
            (reconcile first_pass.1 program_1 program_1 first_pass.2).1 app_ts = true)
    by (vm_compute; reflexivity).
  split_and!; [exact H1|exact H2|]. intros res. split; [exact H3|]. intros h2.
  destruct (reconcile_shares_metadata first_pass.2 first_pass.1 program_1 program_1
              app_ts main_ts 1 H1 H2 H3) as (_ & _ & Hprev).
  subst h2 res. rewrite Hprev. vm_compute. reflexivity.
Defined.

Lemma reconcile_order_irrelevant_witness :
  let shuffled := mkProgram [main_ts; app_ts; main_ts; util_ts] in
  (∀ f, f ∈ getSourceFiles program_1 ↔ f ∈ getSourceFiles shuffled) ∧
  reconcile first_pass.1 program_1 program_1 first_pass.2
  = reconcile first_pass.1 shuffled shuffled first_pass.2.
Proof.
  intros shuffled.
  assert (H : ∀ f, f ∈ getSourceFiles program_1 ↔ f ∈ getSourceFiles shuffled).
  { intros f. simpl. set_solver. }
  split; [exact H|].
  exact (reconcile_order_irrelevant first_pass.2 first_pass.1 program_1 shuffled
           program_1 shuffled H H).
Defined.

End IncrementalState.

(** * di/inject_switch.ts: the current inject implementation *)

Module InjectSwitch.

Section Switch.

(** The type of the functions [_injectImplementation] can hold; function
    values are compared by reference. *)
Context {InjectFn : Type} `{EqDecision InjectFn}.

(** The module-level variable; [None] is [undefined]. *)
Record ModuleState := mkModuleState {
  _injectImplementation : option InjectFn
}.

(** [let _injectImplementation;] *)
Definition initial : ModuleState := mkModuleState None.

Definition getInjectImplementation (st : ModuleState) : option InjectFn :=
  _injectImplementation st.

Definition setInjectImplementation (impl : option InjectFn) (st : ModuleState)
    : option InjectFn * ModuleState :=
  let previous := _injectImplementation st in
  (previous, mkModuleState impl).

(** Modelled from the spec: [assertNotEqual] of util/assert, which is not
    among the sources; the assertion of the design notes fails, with its
    message, when its two first arguments are equal. [inr msg] is the thrown
    error. *)
Definition assertNotEqual (actual expected : option InjectFn) (msg : string)
    : unit + string :=
  if decide (actual = expected) then inr msg else inl tt.

(** [ngDevMode] is the global development-mode flag. *)
Definition assertInjectImplementationNotEqual (ngDevMode : bool) (fn : InjectFn)
    (st : ModuleState) : unit + string :=
  if ngDevMode then
    assertNotEqual (_injectImplementation st) (Some fn)
      "Calling ɵɵinject would cause infinite recursion"%string
  else inl tt.

(** C9: [setInjectImplementation v] makes [getInjectImplementation] return [v]
    and returns the implementation that was current; setting the returned
    value again restores what [getInjectImplementation] returned at first,
    and with it the whole module state. *)
Theorem setInjectImplementation_round_trip (v : option InjectFn) (st : ModuleState) :
  let r := setInjectImplementation v st in
  getInjectImplementation r.2 = v ∧
  r.1 = getInjectImplementation st ∧
  let r' := setInjectImplementation r.1 r.2 in
  r'.1 = v ∧
  getInjectImplementation r'.2 = getInjectImplementation st ∧
  r'.2 = st.
Proof. destruct st as [cur]. simpl. done. Qed.

(** Once [fn] is the current implementation the assertion fails for it in
    development mode, and only for it. *)
Lemma assertInjectImplementationNotEqual_current (fn : InjectFn) (st : ModuleState) :
  assertInjectImplementationNotEqual true fn (setInjectImplementation (Some fn) st).2
  = inr "Calling ɵɵinject would cause infinite recursion"%string.
Proof.
  unfold assertInjectImplementationNotEqual, assertNotEqual. simpl.
  by rewrite decide_True.
Qed.

End Switch.

Example swap_and_restore :
  let st0 := mkModuleState (Some 1%nat) in
  let r := setInjectImplementation (Some 2%nat) st0 in
  (r.1, getInjectImplementation r.2,
   getInjectImplementation (setInjectImplementation r.1 r.2).2)
  = (Some 1%nat, Some 2%nat, Some 1%nat).
Proof. reflexivity. Qed.

(** ** Limp mode *)

(** A value as the function handles it: [undefined], [null] or a value of
    the injected type. *)
Inductive Value (T : Type) :=
| undefined
| null
| object (v : T).
Arguments undefined {T}.
Arguments null {T}.
Arguments object {T} v.

(** [providedIn]: a scope name, an injector type or [null]. *)
Inductive ProvidedIn :=
| InScope (name : string)
| InInjectorType (type : positive)
| InNothing.

(** What a call ends with: a value, or an exception [e]. *)
Inductive Outcome (T E : Type) :=
| Return (v : Value T)
| Throw (e : E).
Arguments Return {T E} v.
Arguments Throw {T E} e.

Section LimpMode.

(** [E] is what can be thrown. *)
Context {Token T E : Type}.

(** The [value] field of the injectable definitions, by the reference of the
    definition object; a field never written holds [undefined]. *)
Abbreviation Values := (gmap positive (Value T)) (only parsing).

(** An injectable definition: its reference, and the two fields the function
    reads and never writes. A factory is code of the application: it may
    itself read and write values, and it returns or throws. *)
Record InjectableDef := mkInjectableDef {
  def_ref : positive;
  providedIn : ProvidedIn;
  factory : Values → Outcome T E * Values
}.

(** Declared elsewhere: [getInjectableDef] (./interface/defs), the flag
    [InjectFlags.Optional] (./interface/injector), [stringify] and the
    constructor [Error]. *)
Variable getInjectableDef : Token → option InjectableDef.
Variable Optional : Z.
Variable stringify : Token → string.
Variable new_Error : string → E.

Definition value_of (st : Values) (def : InjectableDef) : Value T :=
  default undefined (st !! def_ref def).

(** [providedIn == 'root']; an injector type is not the string ['root']. *)
Definition provided_in_root (def : InjectableDef) : bool :=
  match providedIn def with
  | InScope name => bool_decide (name = "root"%string)
  | _ => false
  end.

Definition not_found_message (token : Token) : string :=
  ("Injector: NOT_FOUND [" +:+ stringify token +:+ "]")%string.

(** The three last statements of [injectRootLimpMode]. *)
Definition not_found (token : Token) (notFoundValue : Value T) (flags : Z)
    : Outcome T E :=
  if negb (Z.land flags Optional =? 0)%Z then Return null
  else match notFoundValue with
       | undefined => Throw (new_Error (not_found_message token))
       | _ => Return notFoundValue
       end.

(** When the factory throws, the assignment to [injectableDef.value] is not
    made and the exception leaves the function. *)
Definition injectRootLimpMode (token : Token) (notFoundValue : Value T) (flags : Z)
    (st : Values) : Outcome T E * Values :=
  match getInjectableDef token with
  | Some injectableDef =>
      if provided_in_root injectableDef then
        match value_of st injectableDef with
        | undefined =>
            match factory injectableDef st with
            | (Return v, st') => (Return v, <[def_ref injectableDef := v]> st')
            | (Throw e, st') => (Throw e, st')
            end
        | v => (Return v, st)
        end
      else (not_found token notFoundValue flags, st)
  | None => (not_found token notFoundValue flags, st)
  end.

(** The token has a definition provided in root. *)
Definition root_provided (token : Token) : bool :=
  match getInjectableDef token with
  | Some def => provided_in_root def
  | None => false
  end.

(** X9: for a token provided in root, [injectRootLimpMode] reads neither the
    flags nor the not-found value. It throws only what the factory of the
    definition throws, which happens only while the definition holds no
    value, and it then stores nothing itself. When it returns, the value it
    returns is the value the definition holds after the call, and when that
    value is not [undefined] every later call returns it again and leaves the
    values as they are: the factory is not run again. A definition that holds
    a value is returned as it is. *)
Theorem injectRootLimpMode_root (token : Token) (def : InjectableDef)
    (notFoundValue : Value T) (flags : Z) (st : Values) :
  getInjectableDef token = Some def →
  provided_in_root def = true →
  let r := injectRootLimpMode token notFoundValue flags st in
  (∀ notFoundValue' flags', injectRootLimpMode token notFoundValue' flags' st = r) ∧
  (∀ v, r.1 = Return v →
        value_of r.2 def = v ∧
        (v ≠ undefined →
         ∀ notFoundValue' flags',
           injectRootLimpMode token notFoundValue' flags' r.2 = (Return v, r.2))) ∧
  (∀ e, r.1 = Throw e →
        value_of st def = undefined ∧ factory def st = (Throw e, r.2)) ∧
  (value_of st def ≠ undefined → r = (Return (value_of st def), st)).
Proof.
  intros Hdef Hroot r.
  subst r. unfold injectRootLimpMode. rewrite Hdef, Hroot.
  destruct (value_of st def) as [| |x] eqn:Hv.
  - destruct (factory def st) as [[v|e] st'] eqn:Hf; simpl.
    + assert (Hset : value_of (<[def_ref def := v]> st') def = v).
      { unfold value_of. by rewrite lookup_insert_eq. }
      split_and!; [done| |done|done].
      intros v' [= <-]. split; [done|].
      intros Hne nf fl. rewrite Hset. by destruct v.
    + split_and!; [done|done| |done]. by intros e' [= <-].
  - simpl. split_and!; [done| |done|done].
    intros v' [= <-]. split; [done|]. intros. by rewrite Hv.
  - simpl. split_and!; [done| |done|done].
    intros v' [= <-]. split; [done|]. intros. by rewrite Hv.
Qed.

(** X10: [injectRootLimpMode] throws exactly in two cases: the token is not
    provided in root, the optional flag is not set and the not-found value is
    [undefined]; or the token is provided in root, its definition holds no
    value and its factory throws. For a token that is not provided in root
    no value is written, the only exception is the error whose message names
    the token, the result is [null] when the optional flag is set, whatever
    the not-found value, and the not-found value otherwise. *)
Theorem injectRootLimpMode_not_found (token : Token) (notFoundValue : Value T)
    (flags : Z) (st : Values) :
  let r := injectRootLimpMode token notFoundValue flags st in
  ((∃ e, r.1 = Throw e) ↔
   (root_provided token = false ∧ Z.land flags Optional = 0%Z ∧
    notFoundValue = undefined) ∨
   (∃ def e st', getInjectableDef token = Some def ∧ provided_in_root def = true ∧
                 value_of st def = undefined ∧ factory def st = (Throw e, st'))) ∧
  (root_provided token = false →
   r.2 = st ∧
   (∀ e, r.1 = Throw e → e = new_Error (not_found_message token)) ∧
   (Z.land flags Optional ≠ 0%Z → r.1 = Return null) ∧
   (Z.land flags Optional = 0%Z → notFoundValue ≠ undefined →
    r.1 = Return notFoundValue)).
Proof.
  intros r.
  assert (Hnf : root_provided token = false →
                r = (not_found token notFoundValue flags, st)).
  { unfold root_provided. subst r. unfold injectRootLimpMode.
    destruct (getInjectableDef token) as [def|]; [|done]. by intros ->. }
  assert (Hthrow : ∀ e, not_found token notFoundValue flags = Throw e →
            Z.land flags Optional = 0%Z ∧ notFoundValue = undefined ∧
            e = new_Error (not_found_message token)).
  { intros e. unfold not_found.
    destruct (Z.eqb_spec (Z.land flags Optional) 0) as [Hz|Hz]; simpl; [|done].
    destruct notFoundValue; [|done..]. by intros [= <-]. }
  split.
  - split.
    + intros [e He]. destruct (root_provided token) eqn:Hr.
      * right. unfold root_provided in Hr.
        destruct (getInjectableDef token) as [def|] eqn:Hdef; [|done].
        destruct (injectRootLimpMode_root token def notFoundValue flags st Hdef Hr)
          as (_ & _ & Hfactory & _).
        destruct (Hfactory e He) as [Hv Hf]. by exists def, e, r.2.
      * left. rewrite (Hnf eq_refl) in He. simpl in He.
        by destruct (Hthrow _ He) as (? & ? & _).
    + intros [(Hr & Hz & ->)|(def & e & st' & Hdef & Hroot & Hv & Hf)].
      * rewrite (Hnf Hr). simpl. unfold not_found. rewrite Hz. simpl. by eexists.
      * subst r. unfold injectRootLimpMode. rewrite Hdef, Hroot, Hv, Hf. by eexists.
  - intros Hr. rewrite (Hnf Hr). simpl. split_and!; [done| | |].
    + intros e He. by destruct (Hthrow _ He) as (? & ? & ?).
    + intros Hz. unfold not_found.
      by destruct (Z.eqb_spec (Z.land flags Optional) 0).
    + intros Hz Hne. unfold not_found. rewrite Hz. simpl. by destruct notFoundValue.
Qed.

End LimpMode.

(** A service provided in root whose factory counts its runs, a service
    whose factory throws, a token without definition, and the flag as
    Angular declares it. *)
Definition service_def : @InjectableDef nat string :=
  mkInjectableDef 1 (InScope "root")
    (λ st, (Return (object 42%nat),
            <[2%positive := object (S (match st !! 2%positive with
                                       | Some (object n) => n
                                       | _ => 0%nat
                                       end))]> st)).

Definition broken_def : @InjectableDef nat string :=
  mkInjectableDef 3 (InScope "root") (λ st, (Throw "no backend"%string, st)).

Definition defs (token : string) : option (@InjectableDef nat string) :=
  if bool_decide (token = "Service"%string) then Some service_def
  else if bool_decide (token = "Broken"%string) then Some broken_def
  else None.

Definition error_of (message : string) : string := ("Error: " +:+ message)%string.

Example limp_mode_runs_factory_once :
  let r1 := injectRootLimpMode defs 8 (λ t, t) error_of "Service"%string undefined 0 ∅ in
  let r2 := injectRootLimpMode defs 8 (λ t, t) error_of "Service"%string undefined 0 r1.2 in
  (r1.1, r2.1, r2.2 !! 2%positive)
  = (Return (object 42%nat), Return (object 42%nat), Some (object 1%nat)).
Proof. vm_compute. reflexivity. Qed.

Example limp_mode_not_found :
  ((injectRootLimpMode defs 8 (λ t, t) error_of "Other"%string (object 7%nat) 8 ∅).1,
   (injectRootLimpMode defs 8 (λ t, t) error_of "Other"%string (object 7%nat) 0 ∅).1,
   (injectRootLimpMode defs 8 (λ t, t) error_of "Other"%string undefined 0 ∅).1)
  = (Return null, Return (object 7%nat),
     Throw "Error: Injector: NOT_FOUND [Other]"%string).
Proof. vm_compute. reflexivity. Qed.

(** The exception of a factory leaves the function, optional flag or not. *)
Example limp_mode_factory_throws :
  injectRootLimpMode defs 8 (λ t, t) error_of "Broken"%string (object 7%nat) 8 ∅
  = (Throw "no backend"%string, ∅).
Proof. vm_compute. reflexivity. Qed.

Lemma injectRootLimpMode_root_witness :
  defs "Service"%string = Some service_def ∧
  provided_in_root service_def = true ∧
  let r := injectRootLimpMode defs 8 (λ t, t) error_of "Service"%string undefined 0 ∅ in
  value_of r.2 service_def = object 42%nat ∧
  injectRootLimpMode defs 8 (λ t, t) error_of "Service"%string null 8 r.2
  = (Return (object 42%nat), r.2).
Proof.
  assert (H1 : defs "Service"%string = Some service_def) by reflexivity.
  assert (H2 : provided_in_root service_def = true) by reflexivity.
  split_and!; [exact H1|exact H2|].
  destruct (injectRootLimpMode_root defs 8 (λ t, t) error_of "Service"%string
              service_def undefined 0 ∅ H1 H2) as (_ & Hreturn & _).
  destruct (Hreturn (object 42%nat) eq_refl) as [Hvalue Hagain].
  split; [exact Hvalue|]. exact (Hagain ltac:(discriminate) null 8%Z).
Defined.

Lemma injectRootLimpMode_not_found_witness :
  root_provided defs "Other"%string = false ∧
  (injectRootLimpMode defs 8 (λ t, t) error_of "Other"%string (object 7%nat) 8 ∅).2 = ∅ ∧
  ∃ e, (injectRootLimpMode defs 8 (λ t, t) error_of "Broken"%string (object 7%nat) 8
          ∅).1 = Throw e.
Proof.
  assert (H : root_provided defs "Other"%string = false) by reflexivity.
  split_and!; [exact H| |].
  - destruct (injectRootLimpMode_not_found defs 8 (λ t, t) error_of "Other"%string
                (object 7%nat) 8 ∅) as (_ & Hnf).
    exact (proj1 (Hnf H)).
  - apply (injectRootLimpMode_not_found defs 8 (λ t, t) error_of "Broken"%string
             (object 7%nat) 8 ∅).
    right. exists broken_def, "no backend"%string, ∅.
    split_and!; reflexivity.
Defined.

End InjectSwitch.

(** * ngcc/src/rendering/umd_rendering_formatter.ts *)

Module Umd.

Local Open Scope string_scope.
Local Open Scope Z_scope.

(** ** The text-surgery buffer (the magic-string package)

    The buffer keeps the original text and, for every offset, the text
    appended to the left of it (after the character that ends there) and to
    the right of it (before the character that starts there). An insertion at
    an offset with no character on that side goes to the buffer's own [intro]
    or [outro]. Insertions at one offset keep their order. *)
Record MagicString := mkMagicString {
  original : string;
  intro : string;
  outro : string;
  lefts : gmap Z string;
  rights : gmap Z string
}.

Definition new_MagicString (text : string) : MagicString :=
  mkMagicString text "" "" ∅ ∅.

Definition text_at (m : gmap Z string) (index : Z) : string :=
  default "" (m !! index).

Definition appendLeft (o : MagicString) (index : Z) (content : string) : MagicString :=
  if bool_decide (0 < index ≤ Z.of_nat (String.length (original o))) then
    mkMagicString (original o) (intro o) (outro o)
      (<[index := text_at (lefts o) index +:+ content]> (lefts o)) (rights o)
  else
    mkMagicString (original o) (intro o +:+ content) (outro o) (lefts o) (rights o).

Definition appendRight (o : MagicString) (index : Z) (content : string) : MagicString :=
  if bool_decide (0 ≤ index < Z.of_nat (String.length (original o))) then
    mkMagicString (original o) (intro o) (outro o)
      (lefts o) (<[index := text_at (rights o) index +:+ content]> (rights o))
  else
    mkMagicString (original o) (intro o) (outro o +:+ content) (lefts o) (rights o).

Fixpoint render_from (o : MagicString) (index : Z) (s : string) : string :=
  match s with
  | EmptyString => ""
  | String c s' =>
      text_at (rights o) index +:+
      String c (text_at (lefts o) (index + 1) +:+ render_from o (index + 1) s')
  end.

Definition toString (o : MagicString) : string :=
  intro o +:+ render_from o 0 (original o) +:+ outro o.

Fixpoint string_take (n : nat) (s : string) : string :=
  match n, s with
  | S n', String c s' => String c (string_take n' s')
  | _, _ => EmptyString
  end.

Fixpoint string_drop (n : nat) (s : string) : string :=
  match n, s with
  | O, _ => s
  | S n', String _ s' => string_drop n' s'
  | S _, EmptyString => EmptyString
  end.

(** The rendered text up to an offset, with what was appended to its left,
    and from that offset on, with what was appended to its right. *)
Definition rendered_before (o : MagicString) (index : nat) : string :=
  intro o +:+ render_from o 0 (string_take index (original o)).

Definition rendered_after (o : MagicString) (index : nat) : string :=
  render_from o (Z.of_nat index) (string_drop index (original o)) +:+ outro o.

(** The buffer after [content] was appended to the left of [index]. *)
Definition with_left (o : MagicString) (index : Z) (content : string) : MagicString :=
  mkMagicString (original o) (intro o) (outro o)
    (<[index := text_at (lefts o) index +:+ content]> (lefts o)) (rights o).

(** ** The TypeScript syntax tree

    Only what the formatter reads: the kind of a node, its children in the
    order [forEachChild] visits them, [getStart()] and [getEnd()]. Token
    children (operators, punctuation) have no children and pass none of the
    tests below; an operator is kept as the kind of its token. *)
Record Pos := mkPos { pos_start : Z; pos_end : Z }.

Inductive SyntaxKind :=
| AmpersandAmpersandToken
| CommaToken
| EqualsEqualsEqualsToken
| ExclamationEqualsEqualsToken
| OtherToken (kind : nat).

#[global] Instance SyntaxKind_eq_dec : EqDecision SyntaxKind.
Proof. solve_decision. Defined.

Inductive Node :=
| Identifier (p : Pos) (text : string)
| TypeOfExpression (p : Pos) (expression : Node)
| BinaryExpression (p : Pos) (left : Node) (operatorToken : SyntaxKind) (right : Node)
| ConditionalExpression (p : Pos) (condition whenTrue whenFalse : Node)
| CallExpression (p : Pos) (expression : Node) (arguments : list Node)
| ParenthesizedExpression (p : Pos) (expression : Node)
| ArrayLiteralExpression (p : Pos) (elements : list Node)
| FunctionExpression (p : Pos) (name : option Node) (parameters : list Node) (body : Node)
| Block (p : Pos) (statements : list Node)
| OtherNode (p : Pos) (children : list Node).

Definition pos_of (n : Node) : Pos :=
  match n with
  | Identifier p _ | TypeOfExpression p _ | BinaryExpression p _ _ _
  | ConditionalExpression p _ _ _ | CallExpression p _ _
  | ParenthesizedExpression p _ | ArrayLiteralExpression p _
  | FunctionExpression p _ _ _ | Block p _ | OtherNode p _ => p
  end.

Definition getStart (n : Node) : Z := pos_start (pos_of n).
Definition getEnd (n : Node) : Z := pos_end (pos_of n).

(** The property of its parent a node is the value of. *)
Inductive Slot :=
| InExpression | InLeft | InRight
| InCondition | InWhenTrue | InWhenFalse
| InArguments (i : nat) | InElements (i : nat)
| InName | InParameters (i : nat) | InBody
| InStatements (i : nat) | InChildren (i : nat).

#[global] Instance Slot_eq_dec : EqDecision Slot.
Proof. solve_decision. Defined.

(** [node.parent]: a node is handled together with the chain of its
    ancestors, nearest first, each with the slot the chain goes through. *)
Record Crumb := mkCrumb { parent : Node; slot : Slot }.

Record NodeRef := mkNodeRef { node : Node; parents : list Crumb }.

(** [ts.isXxx] *)
Definition isCallExpression (n : Node) : bool :=
  match n with CallExpression _ _ _ => true | _ => false end.
Definition isConditionalExpression (n : Node) : bool :=
  match n with ConditionalExpression _ _ _ _ => true | _ => false end.
Definition isParenthesizedExpression (n : Node) : bool :=
  match n with ParenthesizedExpression _ _ => true | _ => false end.
Definition isArrayLiteralExpression (n : Node) : bool :=
  match n with ArrayLiteralExpression _ _ => true | _ => false end.
Definition isFunctionExpression (n : Node) : bool :=
  match n with FunctionExpression _ _ _ _ => true | _ => false end.

(** [forEachChild] over an array of children: the first truthy result. *)
Fixpoint first_child {R} (visit : nat → Node → option R) (i : nat) (cs : list Node)
    : option R :=
  match cs with
  | [] => None
  | c :: cs' =>
      match visit i c with
      | Some r => Some r
      | None => first_child visit (S i) cs'
      end
  end.

Definition or_else {R} (a : option R) (b : option R) : option R :=
  match a with Some r => Some r | None => b end.

(** find *)
Fixpoint find (test : list Crumb → Node → bool) (ctx : list Crumb) (n : Node)
    {struct n} : option NodeRef :=
  if test ctx n then Some (mkNodeRef n ctx)
  else
    match n with
    | Identifier _ _ => None
    | TypeOfExpression _ e => find test (mkCrumb n InExpression :: ctx) e
    | BinaryExpression _ l _ r =>
        or_else (find test (mkCrumb n InLeft :: ctx) l)
                (find test (mkCrumb n InRight :: ctx) r)
    | ConditionalExpression _ c t f =>
        or_else (find test (mkCrumb n InCondition :: ctx) c)
          (or_else (find test (mkCrumb n InWhenTrue :: ctx) t)
                   (find test (mkCrumb n InWhenFalse :: ctx) f))
    | CallExpression _ e args =>
        or_else (find test (mkCrumb n InExpression :: ctx) e)
          (first_child (λ i c, find test (mkCrumb n (InArguments i) :: ctx) c) 0 args)
    | ParenthesizedExpression _ e => find test (mkCrumb n InExpression :: ctx) e
    | ArrayLiteralExpression _ es =>
        first_child (λ i c, find test (mkCrumb n (InElements i) :: ctx) c) 0 es
    | FunctionExpression _ name ps b =>
        or_else (match name with
                 | Some nm => find test (mkCrumb n InName :: ctx) nm
                 | None => None
                 end)
          (or_else
             (first_child (λ i c, find test (mkCrumb n (InParameters i) :: ctx) c) 0 ps)
             (find test (mkCrumb n InBody :: ctx) b))
    | Block _ ss =>
        first_child (λ i c, find test (mkCrumb n (InStatements i) :: ctx) c) 0 ss
    | OtherNode _ cs =>
        first_child (λ i c, find test (mkCrumb n (InChildren i) :: ctx) c) 0 cs
    end.

(** ** The wrapper tests *)

Definition isCommaExpression (value : Node) : bool :=
  match value with
  | BinaryExpression _ _ op _ => bool_decide (op = CommaToken)
  | _ => false
  end.

Definition isTypeOf (types : list string) (n : Node) : bool :=
  match n with
  | BinaryExpression _ (TypeOfExpression _ (Identifier _ text)) _ _ =>
      bool_decide (text ∈ types)
  | _ => false
  end.

Definition oneOfBinaryConditions (n : Node) (test : Node → bool) : bool :=
  match n with
  | BinaryExpression _ l _ r => test l || test r
  | _ => false
  end.

Definition isCommonJSConditional (value : Node) : bool :=
  match value with
  | ConditionalExpression _ condition whenTrue _ =>
      match condition with
      | BinaryExpression _ _ op _ =>
          if negb (bool_decide (op = AmpersandAmpersandToken)) then false
          else if negb (oneOfBinaryConditions condition (isTypeOf ["exports"; "module"]))
          then false
          else match whenTrue with
               | CallExpression _ (Identifier _ text) _ => bool_decide (text = "factory")
               | _ => false
               end
      | _ => false
      end
  | _ => false
  end.

Definition isAmdConditional (value : Node) : bool :=
  match value with
  | ConditionalExpression _ condition whenTrue _ =>
      match condition with
      | BinaryExpression _ _ op _ =>
          if negb (bool_decide (op = AmpersandAmpersandToken)) then false
          else if negb (oneOfBinaryConditions condition (isTypeOf ["define"]))
          then false
          else match whenTrue with
               | CallExpression _ (Identifier _ text) _ => bool_decide (text = "define")
               | _ => false
               end
      | _ => false
      end
  | _ => false
  end.

(** [isGlobalFactoryCall]. [value] is reassigned to its parent twice; a node
    reached from the first statement of a function body has the block and the
    function among its ancestors, so a comma expression above it has a parent
    and the [[]] case of the second match is never met there. *)
Definition isGlobalFactoryCall (ctx : list Crumb) (value : Node) : bool :=
  match ctx with
  | c :: up =>
      if isCallExpression value then
        let v1 := if isCommaExpression (parent c)
                  then mkNodeRef (parent c) up else mkNodeRef value ctx in
        match parents v1 with
        | [] => false
        | c1 :: up1 =>
            let v2 := if isParenthesizedExpression (parent c1)
                      then mkNodeRef (parent c1) up1 else v1 in
            match parents v2 with
            | [] => false
            | c2 :: _ =>
                isConditionalExpression (parent c2) && bool_decide (slot c2 = InWhenFalse)
            end
        end
      else false
  | [] => false
  end.

(** ** Imports and exports *)

Record Import := mkImport { specifier : string; qualifier : string }.

Record ExportInfo := mkExportInfo { identifier : string; from : string }.

Record NamedImport := mkNamedImport { moduleImport : option string; symbol : string }.

(** [String.prototype.replace] with a string pattern: the first occurrence. *)
Fixpoint replace_first (pattern replacement s : string) : string :=
  if String.prefix pattern s
  then replacement +:+ string_drop (String.length pattern) s
  else match s with
       | EmptyString => EmptyString
       | String c s' => String c (replace_first pattern replacement s')
       end.

(** [.replace(/^\//, '')] *)
Definition strip_leading_slash (s : string) : string :=
  match s with
  | String "/" s' => s'
  | _ => s
  end.

Definition getGlobalIdentifier (i : Import) : string :=
  strip_leading_slash (replace_first "@angular/" "ng." (specifier i)).

(** ** The four edits of [addImports]

    A method ends normally or with a [TypeError] (a property read on
    [undefined]); either way the buffer keeps what was inserted so far. *)
Inductive Completion := Normal | TypeError.

Definition and_then (r : Completion * MagicString)
    (k : MagicString → Completion * MagicString) : Completion * MagicString :=
  match r with
  | (Normal, o) => k o
  | (TypeError, o) => (TypeError, o)
  end.

(** [wrapperFunction.body.statements[0]], with its ancestors. *)
Definition first_statement (wrapperFunction : NodeRef) : option (Node * list Crumb) :=
  match node wrapperFunction with
  | FunctionExpression _ _ _ (Block bp ss) =>
      match ss with
      | stmt :: _ =>
          Some (stmt, mkCrumb (Block bp ss) (InStatements 0)
                      :: mkCrumb (node wrapperFunction) InBody
                      :: parents wrapperFunction)
      | [] => None
      end
  | _ => None
  end.

Definition renderCommonJsDependencies (output : MagicString)
    (wrapperFunction : NodeRef) (imports : list Import) : Completion * MagicString :=
  match first_statement wrapperFunction with
  | None => (TypeError, output)
  | Some (stmt, ctx) =>
      match find (λ _, isCommonJSConditional) ctx stmt with
      | None => (Normal, output)
      | Some conditional =>
          match node conditional with
          | ConditionalExpression _ _ factoryCall _ =>
              let injectionPoint := getEnd factoryCall - 1 in
              (Normal,
               fold_left (λ o i, appendLeft o injectionPoint
                                   (",require('" +:+ specifier i +:+ "')"))
                         imports output)
          | _ => (TypeError, output)
          end
      end
  end.

Definition renderAmdDependencies (output : MagicString)
    (wrapperFunction : NodeRef) (imports : list Import) : Completion * MagicString :=
  match first_statement wrapperFunction with
  | None => (TypeError, output)
  | Some (stmt, ctx) =>
      match find (λ _, isAmdConditional) ctx stmt with
      | None => (Normal, output)
      | Some conditional =>
          match node conditional with
          | ConditionalExpression _ _ (CallExpression _ _ args) _ =>
              match args !! 1%nat with
              | Some dependencyArray =>
                  if negb (isArrayLiteralExpression dependencyArray) then (Normal, output)
                  else
                    let injectionPoint := getEnd dependencyArray - 1 in
                    (Normal,
                     fold_left (λ o i, appendLeft o injectionPoint
                                         (",'" +:+ specifier i +:+ "'"))
                               imports output)
              | None => (Normal, output)
              end
          | _ => (TypeError, output)
          end
      end
  end.

Definition renderGlobalDependencies (output : MagicString)
    (wrapperFunction : NodeRef) (imports : list Import) : Completion * MagicString :=
  match first_statement wrapperFunction with
  | None => (TypeError, output)
  | Some (stmt, ctx) =>
      match find isGlobalFactoryCall ctx stmt with
      | None => (Normal, output)
      | Some globalFactoryCall =>
          let injectionPoint := getEnd (node globalFactoryCall) - 1 in
          (Normal,
           fold_left (λ o i, appendLeft o injectionPoint
                               (",global." +:+ getGlobalIdentifier i))
                     imports output)
      end
  end.

Definition renderFactoryParameters (output : MagicString)
    (wrapperFunction : NodeRef) (imports : list Import) : Completion * MagicString :=
  match parents wrapperFunction with
  | {| parent := CallExpression _ _ args |} :: _ =>
      match args !! 1%nat with
      | None => (Normal, output)
      | Some secondArgument =>
          let factoryFunction :=
            match secondArgument with
            | ParenthesizedExpression _ e => e
            | _ => secondArgument
            end in
          match factoryFunction with
          | FunctionExpression _ _ parameters _ =>
              match last parameters with
              | Some lastParameter =>
                  let injectionPoint := getEnd lastParameter in
                  (Normal,
                   fold_left (λ o i, appendLeft o injectionPoint ("," +:+ qualifier i))
                             imports output)
              | None => (TypeError, output)
              end
          | _ => (Normal, output)
          end
      end
  | _ => (TypeError, output)
  end.

(** ** The formatter *)

Definition nl : string := String "010"%char EmptyString.

Record UmdModule := mkUmdModule { wrapperFn : NodeRef; factoryFn : NodeRef }.

Section Formatter.

(** What the formatter is given: the reflection host's [getUmdModule], the
    path helpers and the import manager. *)
Context {SourceFile ImportManager : Type}.
Variable getUmdModule : SourceFile → option UmdModule.
Variable stripExtension : string → string.
Variable relative : string → string → string.
Variable dirname : string → string.
Variable generateNamedImport :
  ImportManager → string → string → NamedImport * ImportManager.

Definition addImports (output : MagicString) (imports : list Import)
    (file : SourceFile) : Completion * MagicString :=
  match getUmdModule file with
  | None => (Normal, output)
  | Some umdModule =>
      let wrapperFunction := wrapperFn umdModule in
      and_then (renderCommonJsDependencies output wrapperFunction imports) (λ output,
      and_then (renderAmdDependencies output wrapperFunction imports) (λ output,
      and_then (renderGlobalDependencies output wrapperFunction imports) (λ output,
      renderFactoryParameters output wrapperFunction imports)))
  end.

(** The body of the [exports.forEach] callback. *)
Definition addExport (entryPointBasePath : string) (insertionPoint : Z)
    (st : MagicString * ImportManager) (e : ExportInfo) : MagicString * ImportManager :=
  let '(output, importManager) := st in
  let basePath := stripExtension (from e) in
  let relativePath := "./" +:+ relative (dirname entryPointBasePath) basePath in
  let '(namedImport, importManager) :=
    if negb (bool_decide (entryPointBasePath = basePath))
    then generateNamedImport importManager relativePath (identifier e)
    else (mkNamedImport None (identifier e), importManager) in
  let importNamespace :=
    match moduleImport namedImport with
    | Some (String c m) => String c m +:+ "."
    | _ => ""
    end in
  let exportStr :=
    nl +:+ "exports." +:+ identifier e +:+ " = " +:+ importNamespace
       +:+ symbol namedImport +:+ ";" in
  (appendRight output insertionPoint exportStr, importManager).

Definition addExports (output : MagicString) (entryPointBasePath : string)
    (exports : list ExportInfo) (importManager : ImportManager) (file : SourceFile)
    : Completion * (MagicString * ImportManager) :=
  match getUmdModule file with
  | None => (Normal, (output, importManager))
  | Some umdModule =>
      match node (factoryFn umdModule) with
      | FunctionExpression _ _ _ (Block bp ss) =>
          let insertionPoint :=
            match last ss with
            | Some lastStatement => getEnd lastStatement
            | None => pos_end bp - 1
            end in
          (Normal, fold_left (addExport entryPointBasePath insertionPoint)
                             exports (output, importManager))
      | _ => (TypeError, (output, importManager))
      end
  end.

Definition addConstants (output : MagicString) (constants : string)
    (file : SourceFile) : Completion * MagicString :=
  if bool_decide (constants = "") then (Normal, output)
  else
    match getUmdModule file with
    | None => (Normal, output)
    | Some umdModule =>
        match node (factoryFn umdModule) with
        | FunctionExpression _ _ _ (Block bp ss) =>
            let insertionPoint :=
              match ss with
              | firstStatement :: _ => getStart firstStatement
              | [] => pos_start bp + 1
              end in
            (Normal, appendLeft output insertionPoint (nl +:+ constants +:+ nl))
        | _ => (TypeError, output)
        end
    end.

End Formatter.

(** ** Where the four edits go *)

(** The offset each step of [addImports] inserts at, [None] when the wrapper
    has no such branch. *)
Definition commonJsInjectionPoint (wrapperFunction : NodeRef) : option Z :=
  match first_statement wrapperFunction with
  | Some (stmt, ctx) =>
      match find (λ _, isCommonJSConditional) ctx stmt with
      | Some {| node := ConditionalExpression _ _ factoryCall _ |} =>
          Some (getEnd factoryCall - 1)
      | _ => None
      end
  | None => None
  end.

Definition amdInjectionPoint (wrapperFunction : NodeRef) : option Z :=
  match first_statement wrapperFunction with
  | Some (stmt, ctx) =>
      match find (λ _, isAmdConditional) ctx stmt with
      | Some {| node := ConditionalExpression _ _ (CallExpression _ _ args) _ |} =>
          match args !! 1%nat with
          | Some (ArrayLiteralExpression p _) => Some (pos_end p - 1)
          | _ => None
          end
      | _ => None
      end
  | None => None
  end.

Definition globalInjectionPoint (wrapperFunction : NodeRef) : option Z :=
  match first_statement wrapperFunction with
  | Some (stmt, ctx) =>
      match find isGlobalFactoryCall ctx stmt with
      | Some globalFactoryCall => Some (getEnd (node globalFactoryCall) - 1)
      | None => None
      end
  | None => None
  end.

(** The factory function expression the wrapper is called with: the second
    argument of the wrapper call, parentheses removed. *)
Definition factoryFunctionParameters (wrapperFunction : NodeRef) : option (list Node) :=
  match parents wrapperFunction with
  | {| parent := CallExpression _ _ args |} :: _ =>
      match args !! 1%nat with
      | Some (ParenthesizedExpression _ (FunctionExpression _ _ parameters _))
      | Some (FunctionExpression _ _ parameters _) => Some parameters
      | _ => None
      end
  | _ => None
  end.

Definition isWrapperCall (wrapperFunction : NodeRef) : bool :=
  match parents wrapperFunction with
  | {| parent := CallExpression _ _ _ |} :: _ => true
  | _ => false
  end.

Definition factoryInjectionPoint (wrapperFunction : NodeRef) : option Z :=
  match factoryFunctionParameters wrapperFunction with
  | Some parameters => getEnd <$> last parameters
  | None => None
  end.

Definition branch_edits (point : option Z) (text : Import → string)
    (imports : list Import) : list (Z * string) :=
  match point with
  | Some injectionPoint => map (λ i, (injectionPoint, text i)) imports
  | None => []
  end.

Definition apply_edits (output : MagicString) (edits : list (Z * string)) : MagicString :=
  fold_left (λ o e, appendLeft o e.1 e.2) edits output.

Definition requireArgument (i : Import) : string := ",require('" +:+ specifier i +:+ "')".
Definition arrayEntry (i : Import) : string := ",'" +:+ specifier i +:+ "'".
Definition globalArgument (i : Import) : string := ",global." +:+ getGlobalIdentifier i.
Definition factoryParameter (i : Import) : string := "," +:+ qualifier i.

(** All the insertions of one [addImports] call, in the order they are made. *)
Definition import_edits (wrapperFunction : NodeRef) (imports : list Import)
    : list (Z * string) :=
  branch_edits (commonJsInjectionPoint wrapperFunction) requireArgument imports ++
  branch_edits (amdInjectionPoint wrapperFunction) arrayEntry imports ++
  branch_edits (globalInjectionPoint wrapperFunction) globalArgument imports ++
  branch_edits (factoryInjectionPoint wrapperFunction) factoryParameter imports.


(** ** The text after the edits *)

(** The texts of a list, one after the other. *)
Fixpoint concat_lines (lines : list string) : string :=
  match lines with
  | [] => ""
  | l :: ls => l +:+ concat_lines ls
  end.

(** The text a buffer renders when, at every offset, [inserted] is put after
    the character that ends there and after all that is already appended to
    the left of the offset. *)
Fixpoint render_inserting (o : MagicString) (inserted : Z → string) (index : Z)
    (s : string) : string :=
  match s with
  | EmptyString => ""
  | String c s' =>
      text_at (rights o) index +:+
      String c (text_at (lefts o) (index + 1) +:+ inserted (index + 1) +:+
                render_inserting o inserted (index + 1) s')
  end.

Definition toString_inserting (o : MagicString) (inserted : Z → string) : string :=
  intro o +:+ render_inserting o inserted 0 (original o) +:+ outro o.

(** What one step of [addImports] puts at an offset: the texts of all the
    imports, in their order, at the point of its branch and nothing
    elsewhere; nothing at all when the branch is missing. *)
Definition branch_text (point : option Z) (text : Import → string)
    (imports : list Import) (index : Z) : string :=
  match point with
  | Some injectionPoint =>
      if bool_decide (injectionPoint = index) then concat_lines (map text imports)
      else ""
  | None => ""
  end.

(** What [addImports] puts at an offset. *)
Definition import_insertions (wrapperFunction : NodeRef) (imports : list Import)
    (index : Z) : string :=
  branch_text (commonJsInjectionPoint wrapperFunction) requireArgument imports index +:+
  branch_text (amdInjectionPoint wrapperFunction) arrayEntry imports index +:+
  branch_text (globalInjectionPoint wrapperFunction) globalArgument imports index +:+
  branch_text (factoryInjectionPoint wrapperFunction) factoryParameter imports index.


Definition injection_points (wrapperFunction : NodeRef) : list (option Z) :=
  [commonJsInjectionPoint wrapperFunction; amdInjectionPoint wrapperFunction;
   globalInjectionPoint wrapperFunction; factoryInjectionPoint wrapperFunction].


(** ** Properties *)

Lemma first_child_Some {R} (visit : nat → Node → option R) i cs r :
  first_child visit i cs = Some r →
  ∃ j c, c ∈ cs ∧ visit j c = Some r.
Proof.
  revert i. induction cs as [|c cs IH]; intros i; simpl; [done|].
  destruct (visit i c) eqn:Hv.
  - intros [= ->]. exists i, c. split; [left|done].
  - intros (j & c' & Hin & Hc')%IH. exists j, c'. split; [by right|done].
Qed.

(** [find] answers with a node that passes the test. *)
Lemma find_sound (test : list Crumb → Node → bool) :
  ∀ n ctx r, find test ctx n = Some r → test (parents r) (node r) = true.
Proof.
  fix IH 1. intros n ctx r.
  assert (Hlist : ∀ (mk : nat → Slot) cs i,
             (∀ c, c ∈ cs → ∀ ctx r, find test ctx c = Some r →
                   test (parents r) (node r) = true) →
             first_child (λ i c, find test (mkCrumb n (mk i) :: ctx) c) i cs = Some r →
             test (parents r) (node r) = true).
  { intros mk cs i Hcs (j & c & Hin & Hc)%first_child_Some. by eapply Hcs. }
  destruct n as [p t|p e|p l op r0|p c t f|p e args|p e|p es|p nm ps b|p ss|p cs];
    simpl; destruct (test ctx _) eqn:Ht;
    try (intros [= <-]; exact Ht).
  - apply IH.
  - unfold or_else. destruct (find test _ l) eqn:Hl; [intros [= <-]; eapply IH, Hl|apply IH].
  - unfold or_else. destruct (find test _ c) eqn:Hc; [intros [= <-]; eapply IH, Hc|].
    destruct (find test _ t) eqn:Htt; [intros [= <-]; eapply IH, Htt|apply IH].
  - unfold or_else. destruct (find test _ e) eqn:He; [intros [= <-]; eapply IH, He|].
    apply (Hlist InArguments). clear -IH.
    induction args as [|a args IHa]; intros c Hc; [by apply elem_of_nil in Hc|].
    apply elem_of_cons in Hc as [->|Hc]; [apply IH|by apply IHa].
  - apply IH.
  - apply (Hlist InElements). clear -IH.
    induction es as [|a es IHa]; intros c Hc; [by apply elem_of_nil in Hc|].
    apply elem_of_cons in Hc as [->|Hc]; [apply IH|by apply IHa].
  - unfold or_else. destruct nm as [nm|].
    + destruct (find test _ nm) eqn:Hn; [intros [= <-]; eapply IH, Hn|].
      destruct (first_child _ 0 ps) eqn:Hps; [intros [= <-]|apply IH].
      revert Hps. apply (Hlist InParameters). clear -IH.
      induction ps as [|a ps IHa]; intros c Hc; [by apply elem_of_nil in Hc|].
      apply elem_of_cons in Hc as [->|Hc]; [apply IH|by apply IHa].
    + destruct (first_child _ 0 ps) eqn:Hps; [intros [= <-]|apply IH].
      revert Hps. apply (Hlist InParameters). clear -IH.
      induction ps as [|a ps IHa]; intros c Hc; [by apply elem_of_nil in Hc|].
      apply elem_of_cons in Hc as [->|Hc]; [apply IH|by apply IHa].
  - apply (Hlist InStatements). clear -IH.
    induction ss as [|a ss IHa]; intros c Hc; [by apply elem_of_nil in Hc|].
    apply elem_of_cons in Hc as [->|Hc]; [apply IH|by apply IHa].
  - apply (Hlist InChildren). clear -IH.
    induction cs as [|a cs IHa]; intros c Hc; [by apply elem_of_nil in Hc|].
    apply elem_of_cons in Hc as [->|Hc]; [apply IH|by apply IHa].
Qed.

(** *** The buffer *)

Lemma string_app_cons (x : ascii) (a b : string) :
  String x a +:+ b = String x (a +:+ b).
Proof. reflexivity. Qed.

Lemma string_app_nil_l (a : string) : "" +:+ a = a.
Proof. reflexivity. Qed.

Lemma string_app_assoc (a b c : string) : (a +:+ b) +:+ c = a +:+ b +:+ c.
Proof.
  induction a as [|x a IH]; [done|]. by rewrite !string_app_cons, IH.
Qed.

Lemma string_app_nil_r (a : string) : a +:+ "" = a.
Proof.
  induction a as [|x a IH]; [done|]. by rewrite string_app_cons, IH.
Qed.

Lemma render_from_split (o : MagicString) (k : nat) :
  ∀ s i, render_from o i s
         = render_from o i (string_take k s)
           +:+ render_from o (i + Z.of_nat k) (string_drop k s).
Proof.
  induction k as [|k IH]; intros s i.
  - cbn [string_take string_drop render_from]. rewrite string_app_nil_l.
    f_equal. change (Z.of_nat 0) with 0. lia.
  - destruct s as [|c s]; cbn [string_take string_drop render_from]; [done|].
    rewrite (IH s (i + 1)), !string_app_assoc, string_app_cons, string_app_assoc.
    replace (i + Z.of_nat (S k)) with (i + 1 + Z.of_nat k) by lia. done.
Qed.

Lemma toString_split (o : MagicString) (index : nat) :
  toString o = rendered_before o index +:+ rendered_after o index.
Proof.
  unfold toString, rendered_before, rendered_after.
  rewrite (render_from_split o index (original o) 0), !string_app_assoc.
  by rewrite Z.add_0_l.
Qed.

Lemma text_at_with_left_ne o index content i :
  i ≠ index → text_at (lefts (with_left o index content)) i = text_at (lefts o) i.
Proof. intros Hne. unfold text_at, with_left; simpl. by rewrite lookup_insert_ne. Qed.

Lemma text_at_with_left_eq o index content :
  text_at (lefts (with_left o index content)) index
  = text_at (lefts o) index +:+ content.
Proof. unfold text_at at 1, with_left; simpl. by rewrite lookup_insert_eq. Qed.

Lemma render_from_with_left_outside o index content :
  ∀ s i, ¬ (i < index ≤ i + Z.of_nat (String.length s)) →
         render_from (with_left o index content) i s = render_from o i s.
Proof.
  induction s as [|c s IH]; intros i Hout; [done|].
  cbn [render_from String.length] in *.
  rewrite IH by lia. by rewrite text_at_with_left_ne by lia.
Qed.

Lemma render_from_with_left_inside o index content (k : nat) :
  ∀ s i, index = i + Z.of_nat (S k) → (S k ≤ String.length s)%nat →
         render_from (with_left o index content) i s
         = render_from o i (string_take (S k) s) +:+ content
           +:+ render_from o index (string_drop (S k) s).
Proof.
  induction k as [|k IH]; intros s i Hindex Hlen;
    (destruct s as [|c s]; cbn [String.length] in Hlen; [lia|]).
  - cbn [render_from string_take string_drop].
    rewrite render_from_with_left_outside by lia.
    replace (i + 1) with index by lia.
    rewrite text_at_with_left_eq.
    destruct s; cbn [string_take render_from];
      rewrite !string_app_assoc, string_app_cons, ?string_app_nil_r,
        ?string_app_assoc; done.
  - cbn [render_from string_take string_drop].
    rewrite (IH s (i + 1)) by lia.
    rewrite text_at_with_left_ne by lia.
    by rewrite !string_app_assoc, string_app_cons, !string_app_assoc.
Qed.

(** [appendLeft] puts the content after all that is rendered before the
    offset and before the character at the offset. *)
Lemma toString_appendLeft (o : MagicString) (index : nat) (content : string) :
  (0 < index ≤ String.length (original o))%nat →
  toString (appendLeft o (Z.of_nat index) content)
  = rendered_before o index +:+ content +:+ rendered_after o index.
Proof.
  intros Hrange. unfold appendLeft. rewrite bool_decide_eq_true_2 by lia.
  fold (with_left o (Z.of_nat index) content).
  destruct index as [|k]; [lia|].
  unfold toString, rendered_before, rendered_after.
  cbn [original intro outro with_left].
  rewrite (render_from_with_left_inside o (Z.of_nat (S k)) content k) by lia.
  by rewrite !string_app_assoc.
Qed.

Lemma apply_edits_at (output : MagicString) (point : Z) (text : Import → string)
    (imports : list Import) :
  fold_left (λ o i, appendLeft o point (text i)) imports output
  = apply_edits output (map (λ i, (point, text i)) imports).
Proof.
  unfold apply_edits. revert output.
  induction imports as [|i imports IH]; intros output; simpl; [done|apply IH].
Qed.

Lemma apply_edits_app (output : MagicString) (es1 es2 : list (Z * string)) :
  apply_edits output (es1 ++ es2) = apply_edits (apply_edits output es1) es2.
Proof. unfold apply_edits. apply fold_left_app. Qed.














Lemma isCommonJSConditional_shape value :
  isCommonJSConditional value = true →
  ∃ p c p' e args f, value = ConditionalExpression p c (CallExpression p' e args) f.
Proof.
  destruct value as [| | |p c t f| | | | | |]; simpl; try done.
  destruct c; try done. repeat case_match; try done. eauto 10.
Qed.

Lemma isAmdConditional_shape value :
  isAmdConditional value = true →
  ∃ p c p' e args f, value = ConditionalExpression p c (CallExpression p' e args) f.
Proof.
  destruct value as [| | |p c t f| | | | | |]; simpl; try done.
  destruct c; try done. repeat case_match; try done. eauto 10.
Qed.

Lemma renderCommonJsDependencies_edits output wrapperFunction imports :
  is_Some (first_statement wrapperFunction) →
  renderCommonJsDependencies output wrapperFunction imports
  = (Normal, apply_edits output
               (branch_edits (commonJsInjectionPoint wrapperFunction)
                             requireArgument imports)).
Proof.
  intros [[stmt ctx] Hst].
  unfold renderCommonJsDependencies, commonJsInjectionPoint. rewrite Hst.
  destruct (find _ ctx stmt) as [[n ps]|] eqn:Hfind; [|done].
  apply find_sound in Hfind. simpl in Hfind.
  apply isCommonJSConditional_shape in Hfind as (p & c & p' & e & args & f & ->).
  simpl. by rewrite apply_edits_at.
Qed.

Lemma renderAmdDependencies_edits output wrapperFunction imports :
  is_Some (first_statement wrapperFunction) →
  renderAmdDependencies output wrapperFunction imports
  = (Normal, apply_edits output
               (branch_edits (amdInjectionPoint wrapperFunction) arrayEntry imports)).
Proof.
  intros [[stmt ctx] Hst].
  unfold renderAmdDependencies, amdInjectionPoint. rewrite Hst.
  destruct (find _ ctx stmt) as [[n ps]|] eqn:Hfind; [|done].
  apply find_sound in Hfind. simpl in Hfind.
  apply isAmdConditional_shape in Hfind as (p & c & p' & e & args & f & ->).
  simpl. destruct (args !! 1%nat) as [dependencyArray|]; [|done].
  destruct dependencyArray; simpl; try done. by rewrite apply_edits_at.
Qed.

Lemma renderGlobalDependencies_edits output wrapperFunction imports :
  is_Some (first_statement wrapperFunction) →
  renderGlobalDependencies output wrapperFunction imports
  = (Normal, apply_edits output
               (branch_edits (globalInjectionPoint wrapperFunction)
                             globalArgument imports)).
Proof.
  intros [[stmt ctx] Hst].
  unfold renderGlobalDependencies, globalInjectionPoint. rewrite Hst.
  destruct (find _ ctx stmt) as [r|]; [|done].
  simpl. by rewrite apply_edits_at.
Qed.

Lemma renderFactoryParameters_edits output wrapperFunction imports :
  isWrapperCall wrapperFunction = true →
  factoryFunctionParameters wrapperFunction ≠ Some [] →
  renderFactoryParameters output wrapperFunction imports
  = (Normal, apply_edits output
               (branch_edits (factoryInjectionPoint wrapperFunction)
                             factoryParameter imports)).
Proof.
  unfold isWrapperCall, factoryInjectionPoint, factoryFunctionParameters,
    renderFactoryParameters.
  destruct (parents wrapperFunction) as [|[par sl] up]; [done|].
  destruct par; try done. intros _.
  destruct (arguments !! 1%nat) as [secondArgument|]; [|done].
  destruct secondArgument as [| | | | |? e| |? ? parameters ?| |]; try done.
  - destruct e as [| | | | | | |? ? parameters ?| |]; try done.
    intros Hne. destruct (last parameters) as [lastParameter|] eqn:Hlast.
    + simpl. by rewrite apply_edits_at.
    + apply last_None in Hlast. by subst.
  - intros Hne. destruct (last parameters) as [lastParameter|] eqn:Hlast.
    + simpl. by rewrite apply_edits_at.
    + apply last_None in Hlast. by subst.
Qed.

Lemma renderFactoryParameters_no_parameter output wrapperFunction imports :
  factoryFunctionParameters wrapperFunction = Some [] →
  renderFactoryParameters output wrapperFunction imports = (TypeError, output).
Proof.
  unfold factoryFunctionParameters, renderFactoryParameters.
  destruct (parents wrapperFunction) as [|[par sl] up]; [done|].
  destruct par; try done.
  destruct (arguments !! 1%nat) as [secondArgument|]; [|done].
  destruct secondArgument as [| | | | |? e| |? ? parameters ?| |]; try done.
  - destruct e as [| | | | | | |? ? parameters ?| |]; try done. by intros [= ->].
  - by intros [= ->].
Qed.

(** Whether the fourth step fails or not, the buffer holds the insertions of
    its branch. *)
Lemma renderFactoryParameters_buffer output wrapperFunction imports :
  (renderFactoryParameters output wrapperFunction imports).2
  = apply_edits output
      (branch_edits (factoryInjectionPoint wrapperFunction) factoryParameter imports).
Proof.
  destruct (decide (isWrapperCall wrapperFunction = true)) as [Hcall|Hcall].
  - destruct (factoryFunctionParameters wrapperFunction) as [[|x ps]|] eqn:Hp.
    + rewrite renderFactoryParameters_no_parameter by done.
      unfold factoryInjectionPoint. by rewrite Hp.
    + rewrite renderFactoryParameters_edits; [done..|]. by rewrite Hp.
    + rewrite renderFactoryParameters_edits; [done..|]. by rewrite Hp.
  - unfold renderFactoryParameters, factoryInjectionPoint, factoryFunctionParameters,
      isWrapperCall in *.
    destruct (parents wrapperFunction) as [|[par sl] up]; [done|].
    by destruct par.
Qed.

Section FormatterProperties.

Context {SourceFile ImportManager : Type}.
Variable getUmdModule : SourceFile → option UmdModule.
Variable stripExtension : string → string.
Variable relative : string → string → string.
Variable dirname : string → string.
Variable generateNamedImport :
  ImportManager → string → string → NamedImport * ImportManager.



(** The buffer after [addImports], also when its last step fails. *)
Lemma addImports_buffer (output : MagicString) (imports : list Import)
    (file : SourceFile) (umdModule : UmdModule) :
  getUmdModule file = Some umdModule →
  is_Some (first_statement (wrapperFn umdModule)) →
  (addImports getUmdModule output imports file).2
  = apply_edits output (import_edits (wrapperFn umdModule) imports).
Proof.
  intros Humd Hst. unfold addImports. rewrite Humd.
  rewrite renderCommonJsDependencies_edits by done. simpl.
  rewrite renderAmdDependencies_edits by done. simpl.
  rewrite renderGlobalDependencies_edits by done. simpl.
  rewrite renderFactoryParameters_buffer.
  unfold import_edits. by rewrite !apply_edits_app.
Qed.

(** C4: when the host finds no UMD module in the file, [addImports],
    [addExports] and [addConstants] end normally and leave the buffer (and
    the import manager) as they were. *)
Theorem no_umd_module_no_edit (output : MagicString) (file : SourceFile)
    (imports : list Import) (entryPointBasePath : string) (exports : list ExportInfo)
    (importManager : ImportManager) (constants : string) :
  getUmdModule file = None →
  addImports getUmdModule output imports file = (Normal, output) ∧
  addExports getUmdModule stripExtension relative dirname generateNamedImport
    output entryPointBasePath exports importManager file
  = (Normal, (output, importManager)) ∧
  addConstants getUmdModule output constants file = (Normal, output) ∧
  toString (addImports getUmdModule output imports file).2 = toString output ∧
  toString (addExports getUmdModule stripExtension relative dirname generateNamedImport
              output entryPointBasePath exports importManager file).2.1
  = toString output ∧
  toString (addConstants getUmdModule output constants file).2 = toString output.
Proof.
  intros Humd. unfold addImports, addExports, addConstants. rewrite Humd.
  by case_bool_decide.
Qed.

End FormatterProperties.

(** C10: [renderFactoryParameters] reads the last parameter of the factory
    function without testing that there is one. With at least one parameter
    the read is in bounds and the insertions go to the end of the last
    parameter; with none the step ends with a [TypeError] and inserts nothing.
    The three other steps test for their seam and return normally, inserting
    nothing, when it is missing. *)
Theorem renderFactoryParameters_last_parameter (output : MagicString)
    (wrapperFunction : NodeRef) (imports : list Import) (parameters : list Node) :
  factoryFunctionParameters wrapperFunction = Some parameters →
  (parameters ≠ [] →
   ∃ lastParameter,
     parameters !! (length parameters - 1)%nat = Some lastParameter ∧
     renderFactoryParameters output wrapperFunction imports
     = (Normal, apply_edits output
                  (map (λ i, (getEnd lastParameter, "," +:+ qualifier i)) imports))) ∧
  (parameters = [] →
   renderFactoryParameters output wrapperFunction imports = (TypeError, output)) ∧
  (is_Some (first_statement wrapperFunction) →
   (commonJsInjectionPoint wrapperFunction = None →
    renderCommonJsDependencies output wrapperFunction imports = (Normal, output)) ∧
   (amdInjectionPoint wrapperFunction = None →
    renderAmdDependencies output wrapperFunction imports = (Normal, output)) ∧
   (globalInjectionPoint wrapperFunction = None →
    renderGlobalDependencies output wrapperFunction imports = (Normal, output))).
Proof.
  intros Hparams. split_and!.
  - intros Hne.
    assert (Hcall : isWrapperCall wrapperFunction = true).
    { unfold isWrapperCall. unfold factoryFunctionParameters in Hparams.
      destruct (parents wrapperFunction) as [|[par sl] up]; [done|].
      by destruct par. }
    destruct (last parameters) as [lastParameter|] eqn:Hlast;
      [|by apply last_None in Hlast].
    exists lastParameter. split.
    + replace (length parameters - 1)%nat with (pred (length parameters)) by lia.
      by rewrite <- last_lookup.
    + rewrite renderFactoryParameters_edits by (done || congruence).
      unfold factoryInjectionPoint. by rewrite Hparams, Hlast.
  - intros ->. by apply renderFactoryParameters_no_parameter.
  - intros Hst. split_and!; intros Hnone.
    + rewrite renderCommonJsDependencies_edits by done. by rewrite Hnone.
    + rewrite renderAmdDependencies_edits by done. by rewrite Hnone.
    + rewrite renderGlobalDependencies_edits by done. by rewrite Hnone.
Qed.

(** ** Three UMD files

    The wrapper of a library [f] that depends on [a], with the offsets of its
    nodes; the same file with a factory function that takes no parameter; and
    a wrapper without the AMD branch. *)

Definition umd_text : string :=
  "(function (global, factory) {typeof exports === 'object' && typeof module !== 'undefined' ? factory(exports,require('a')) : typeof define === 'function' && define.amd ? define('f', ['exports','a'], factory) : (factory(global.f,global.a));}(this, (function (exports,a) {})));".

Definition umd_factory : Node :=
  FunctionExpression (mkPos 247 270) None
    [OtherNode (mkPos 257 264)
      [Identifier (mkPos 257 264) "exports"];
     OtherNode (mkPos 265 266)
      [Identifier (mkPos 265 266) "a"]]
    (Block (mkPos 268 270) []).

Definition umd_wrapper : Node :=
  FunctionExpression (mkPos 1 239) None
    [OtherNode (mkPos 11 17)
      [Identifier (mkPos 11 17) "global"];
     OtherNode (mkPos 19 26)
      [Identifier (mkPos 19 26) "factory"]]
    (Block (mkPos 28 239)
      [OtherNode (mkPos 29 238)
        [ConditionalExpression (mkPos 29 237)
          (BinaryExpression (mkPos 29 89)
            (BinaryExpression (mkPos 29 56)
              (TypeOfExpression (mkPos 29 43)
                (Identifier (mkPos 36 43) "exports"))
              EqualsEqualsEqualsToken
              (OtherNode (mkPos 48 56) []))
            AmpersandAmpersandToken
            (BinaryExpression (mkPos 60 89)
              (TypeOfExpression (mkPos 60 73)
                (Identifier (mkPos 67 73) "module"))
              ExclamationEqualsEqualsToken
              (OtherNode (mkPos 78 89) [])))
          (CallExpression (mkPos 92 121)
            (Identifier (mkPos 92 99) "factory")
            [Identifier (mkPos 100 107) "exports";
             CallExpression (mkPos 108 120)
              (Identifier (mkPos 108 115) "require")
              [OtherNode (mkPos 116 119) []]])
          (ConditionalExpression (mkPos 124 237)
            (BinaryExpression (mkPos 124 166)
              (BinaryExpression (mkPos 124 152)
                (TypeOfExpression (mkPos 124 137)
                  (Identifier (mkPos 131 137) "define"))
                EqualsEqualsEqualsToken
                (OtherNode (mkPos 142 152) []))
              AmpersandAmpersandToken
              (OtherNode (mkPos 156 166)
                [Identifier (mkPos 156 162) "define";
                 Identifier (mkPos 163 166) "amd"]))
            (CallExpression (mkPos 169 206)
              (Identifier (mkPos 169 175) "define")
              [OtherNode (mkPos 176 179) [];
               ArrayLiteralExpression (mkPos 181 196)
                [OtherNode (mkPos 182 191) [];
                 OtherNode (mkPos 192 195) []];
               Identifier (mkPos 198 205) "factory"])
            (ParenthesizedExpression (mkPos 209 237)
              (CallExpression (mkPos 210 236)
                (Identifier (mkPos 210 217) "factory")
                [OtherNode (mkPos 218 226)
                  [Identifier (mkPos 218 224) "global";
                   Identifier (mkPos 225 226) "f"];
                 OtherNode (mkPos 227 235)
                  [Identifier (mkPos 227 233) "global";
                   Identifier (mkPos 234 235) "a"]])))]]).

Definition umd_call : Node :=
  CallExpression (mkPos 1 272) umd_wrapper
    [OtherNode (mkPos 240 244) [];
     ParenthesizedExpression (mkPos 246 271) umd_factory].

Definition umd_statement : Node :=
  OtherNode (mkPos 0 274)
    [ParenthesizedExpression (mkPos 0 273) umd_call].

Definition umd_module : UmdModule :=
  let up := [mkCrumb (ParenthesizedExpression (mkPos 0 273) umd_call) InExpression;
             mkCrumb umd_statement (InChildren 0)] in
  mkUmdModule
    (mkNodeRef umd_wrapper (mkCrumb umd_call InExpression :: up))
    (mkNodeRef umd_factory
       (mkCrumb (ParenthesizedExpression (mkPos 246 271) umd_factory) InExpression
        :: mkCrumb umd_call (InArguments 1) :: up)).

Definition umd0_text : string :=
  "(function (global, factory) {typeof exports === 'object' && typeof module !== 'undefined' ? factory(exports,require('a')) : typeof define === 'function' && define.amd ? define('f', ['exports','a'], factory) : (factory(global.f,global.a));}(this, (function () {})));".

Definition umd0_factory : Node :=
  FunctionExpression (mkPos 247 261) None
    []
    (Block (mkPos 259 261) []).

Definition umd0_call : Node :=
  CallExpression (mkPos 1 263) umd_wrapper
    [OtherNode (mkPos 240 244) [];
     ParenthesizedExpression (mkPos 246 262) umd0_factory].

Definition umd0_statement : Node :=
  OtherNode (mkPos 0 265)
    [ParenthesizedExpression (mkPos 0 264) umd0_call].

Definition umd0_module : UmdModule :=
  let up := [mkCrumb (ParenthesizedExpression (mkPos 0 264) umd0_call) InExpression;
             mkCrumb umd0_statement (InChildren 0)] in
  mkUmdModule
    (mkNodeRef umd_wrapper (mkCrumb umd0_call InExpression :: up))
    (mkNodeRef umd0_factory
       (mkCrumb (ParenthesizedExpression (mkPos 246 262) umd0_factory) InExpression
        :: mkCrumb umd0_call (InArguments 1) :: up)).

Definition cg_text : string :=
  "(function (global, factory) {typeof exports === 'object' && typeof module !== 'undefined' ? factory(exports,require('a')) : (factory(global.f,global.a));}(this, (function (exports,a) {})));".

Definition cg_factory : Node :=
  FunctionExpression (mkPos 162 185) None
    [OtherNode (mkPos 172 179)
      [Identifier (mkPos 172 179) "exports"];
     OtherNode (mkPos 180 181)
      [Identifier (mkPos 180 181) "a"]]
    (Block (mkPos 183 185) []).

Definition cg_wrapper : Node :=
  FunctionExpression (mkPos 1 154) None
    [OtherNode (mkPos 11 17)
      [Identifier (mkPos 11 17) "global"];
     OtherNode (mkPos 19 26)
      [Identifier (mkPos 19 26) "factory"]]
    (Block (mkPos 28 154)
      [OtherNode (mkPos 29 153)
        [ConditionalExpression (mkPos 29 152)
          (BinaryExpression (mkPos 29 89)
            (BinaryExpression (mkPos 29 56)
              (TypeOfExpression (mkPos 29 43)
                (Identifier (mkPos 36 43) "exports"))
              EqualsEqualsEqualsToken
              (OtherNode (mkPos 48 56) []))
            AmpersandAmpersandToken
            (BinaryExpression (mkPos 60 89)
              (TypeOfExpression (mkPos 60 73)
                (Identifier (mkPos 67 73) "module"))
              ExclamationEqualsEqualsToken
              (OtherNode (mkPos 78 89) [])))
          (CallExpression (mkPos 92 121)
            (Identifier (mkPos 92 99) "factory")
            [Identifier (mkPos 100 107) "exports";
             CallExpression (mkPos 108 120)
              (Identifier (mkPos 108 115) "require")
              [OtherNode (mkPos 116 119) []]])
          (ParenthesizedExpression (mkPos 124 152)
            (CallExpression (mkPos 125 151)
              (Identifier (mkPos 125 132) "factory")
              [OtherNode (mkPos 133 141)
                [Identifier (mkPos 133 139) "global";
                 Identifier (mkPos 140 141) "f"];
               OtherNode (mkPos 142 150)
                [Identifier (mkPos 142 148) "global";
                 Identifier (mkPos 149 150) "a"]]))]]).

Definition cg_call : Node :=
  CallExpression (mkPos 1 187) cg_wrapper
    [OtherNode (mkPos 155 159) [];
     ParenthesizedExpression (mkPos 161 186) cg_factory].

Definition cg_statement : Node :=
  OtherNode (mkPos 0 189)
    [ParenthesizedExpression (mkPos 0 188) cg_call].

Definition cg_module : UmdModule :=
  let up := [mkCrumb (ParenthesizedExpression (mkPos 0 188) cg_call) InExpression;
             mkCrumb cg_statement (InChildren 0)] in
  mkUmdModule
    (mkNodeRef cg_wrapper (mkCrumb cg_call InExpression :: up))
    (mkNodeRef cg_factory
       (mkCrumb (ParenthesizedExpression (mkPos 161 186) cg_factory) InExpression
        :: mkCrumb cg_call (InArguments 1) :: up)).

Definition host (file : string) : option UmdModule :=
  if bool_decide (file = "f.umd.js") then Some umd_module
  else if bool_decide (file = "f0.umd.js") then Some umd0_module
  else if bool_decide (file = "cg.umd.js") then Some cg_module
  else None.

Definition two_imports : list Import :=
  [mkImport "@angular/core" "i0"; mkImport "/local-dep" "i1"].

Example umd_spans :
  (substring 92 29 umd_text, substring 181 15 umd_text,
   substring 210 26 umd_text, substring 265 1 umd_text)
  = ("factory(exports,require('a'))", "['exports','a']",
     "factory(global.f,global.a)", "a").
Proof. vm_compute. reflexivity. Qed.

Example umd_injection_points :
  let wf := wrapperFn umd_module in
  (commonJsInjectionPoint wf, amdInjectionPoint wf,
   globalInjectionPoint wf, factoryInjectionPoint wf)
  = (Some 120, Some 195, Some 235, Some 266).
Proof. vm_compute. reflexivity. Qed.

Example addImports_two_imports :
  let r := addImports host (new_MagicString umd_text) two_imports "f.umd.js" in
  r.1 = Normal ∧
  toString r.2 =
  "(function (global, factory) {typeof exports === 'object' && typeof module !== 'undefined' ? factory(exports,require('a'),require('@angular/core'),require('/local-dep')) : typeof define === 'function' && define.amd ? define('f', ['exports','a','@angular/core','/local-dep'], factory) : (factory(global.f,global.a,global.ng.core,global.local-dep));}(this, (function (exports,a,i0,i1) {})));".
Proof. vm_compute. split; reflexivity. Qed.

(** Without the AMD branch the three other edits are made. *)
Example addImports_without_amd :
  let r := addImports host (new_MagicString cg_text) two_imports "cg.umd.js" in
  amdInjectionPoint (wrapperFn cg_module) = None ∧
  r.1 = Normal ∧
  toString r.2 =
  "(function (global, factory) {typeof exports === 'object' && typeof module !== 'undefined' ? factory(exports,require('a'),require('@angular/core'),require('/local-dep')) : (factory(global.f,global.a,global.ng.core,global.local-dep));}(this, (function (exports,a,i0,i1) {})));".
Proof. vm_compute. split_and!; reflexivity. Qed.

(** A factory function without parameters: the three first edits are made,
    then the fourth step fails. *)
Example addImports_factory_without_parameters :
  let r := addImports host (new_MagicString umd0_text) two_imports "f0.umd.js" in
  r.1 = TypeError ∧
  toString r.2 =
  "(function (global, factory) {typeof exports === 'object' && typeof module !== 'undefined' ? factory(exports,require('a'),require('@angular/core'),require('/local-dep')) : typeof define === 'function' && define.amd ? define('f', ['exports','a','@angular/core','/local-dep'], factory) : (factory(global.f,global.a,global.ng.core,global.local-dep));}(this, (function () {})));".
Proof. vm_compute. split; reflexivity. Qed.

Example addConstants_at_the_top :
  toString (addConstants host (new_MagicString umd_text) "var x = 1;" "f.umd.js").2
  = "(function (global, factory) {typeof exports === 'object' && typeof module !== 'undefined' ? factory(exports,require('a')) : typeof define === 'function' && define.amd ? define('f', ['exports','a'], factory) : (factory(global.f,global.a));}(this, (function (exports,a) {"
    +:+ nl +:+ "var x = 1;" +:+ nl +:+ "})));".
Proof. vm_compute. reflexivity. Qed.


(** ** A wrapper function with an empty body

    The factory function and its parameter are there, the three branches are
    not, and there is no first statement to search. *)

Definition eb_text : string :=
  "(function (global, factory) {}(this, (function (exports) {})));".

Definition eb_factory : Node :=
  FunctionExpression (mkPos 38 59) None
    [OtherNode (mkPos 48 55)
      [Identifier (mkPos 48 55) "exports"]]
    (Block (mkPos 57 59) []).

Definition eb_wrapper : Node :=
  FunctionExpression (mkPos 1 30) None
    [OtherNode (mkPos 11 17)
      [Identifier (mkPos 11 17) "global"];
     OtherNode (mkPos 19 26)
      [Identifier (mkPos 19 26) "factory"]]
    (Block (mkPos 28 30) []).

Definition eb_call : Node :=
  CallExpression (mkPos 1 61) eb_wrapper
    [OtherNode (mkPos 31 35) [];
     ParenthesizedExpression (mkPos 37 60) eb_factory].

Definition eb_statement : Node :=
  OtherNode (mkPos 0 63)
    [ParenthesizedExpression (mkPos 0 62) eb_call].

Definition eb_module : UmdModule :=
  let up := [mkCrumb (ParenthesizedExpression (mkPos 0 62) eb_call) InExpression;
             mkCrumb eb_statement (InChildren 0)] in
  mkUmdModule
    (mkNodeRef eb_wrapper (mkCrumb eb_call InExpression :: up))
    (mkNodeRef eb_factory
       (mkCrumb (ParenthesizedExpression (mkPos 37 60) eb_factory) InExpression
        :: mkCrumb eb_call (InArguments 1) :: up)).

Definition eb_host (file : string) : option UmdModule :=
  if bool_decide (file = "empty.umd.js") then Some eb_module else None.

Example eb_spans :
  (substring 28 2 eb_text, substring 48 7 eb_text, substring 57 2 eb_text,
   String.length eb_text)
  = ("{}", "exports", "{}", 63%nat).
Proof. vm_compute. reflexivity. Qed.

(** The search of the first statement fails before anything is inserted,
    where the claim has the parameters of the two imports added. *)
Example addImports_empty_wrapper_body :
  first_statement (wrapperFn eb_module) = None ∧
  injection_points (wrapperFn eb_module) = [None; None; None; Some 55] ∧
  addImports eb_host (new_MagicString eb_text) two_imports "empty.umd.js"
  = (TypeError, new_MagicString eb_text) ∧
  toString_inserting (new_MagicString eb_text)
    (import_insertions (wrapperFn eb_module) two_imports)
  = "(function (global, factory) {}(this, (function (exports,i0,i1) {})));".
Proof. vm_compute. split_and!; reflexivity. Qed.


Lemma no_umd_module_no_edit_witness :
  host "main.js" = None ∧
  addImports host (new_MagicString "var a = 1;") two_imports "main.js"
  = (Normal, new_MagicString "var a = 1;") ∧
  toString (addConstants host (new_MagicString "var a = 1;") "var x = 1;" "main.js").2
  = "var a = 1;".
Proof.
  assert (H : host "main.js" = None) by reflexivity.
  destruct (no_umd_module_no_edit host (λ s, s) (λ _ s, s) (λ s, s)
              (λ (m : nat) _ sym, (mkNamedImport None sym, m))
              (new_MagicString "var a = 1;") "main.js" two_imports "index" [] 0%nat
              "var x = 1;" H) as (Himports & _ & _ & _ & _ & Hconstants).
  split_and!; [exact H|exact Himports|exact Hconstants].
Defined.

Lemma renderFactoryParameters_last_parameter_witness :
  factoryFunctionParameters (wrapperFn umd_module)
  = Some [OtherNode (mkPos 257 264) [Identifier (mkPos 257 264) "exports"];
          OtherNode (mkPos 265 266) [Identifier (mkPos 265 266) "a"]] ∧
  renderFactoryParameters (new_MagicString umd_text) (wrapperFn umd_module) two_imports
  = (Normal, apply_edits (new_MagicString umd_text) [(266, ",i0"); (266, ",i1")]).
Proof.
  assert (H : factoryFunctionParameters (wrapperFn umd_module)
              = Some [OtherNode (mkPos 257 264) [Identifier (mkPos 257 264) "exports"];
                      OtherNode (mkPos 265 266) [Identifier (mkPos 265 266) "a"]])
    by reflexivity.
  split; [exact H|].
  destruct (renderFactoryParameters_last_parameter (new_MagicString umd_text)
              (wrapperFn umd_module) two_imports _ H) as (Hsome & _ & _).
  destruct (Hsome ltac:(discriminate)) as (lastParameter & Hlast & Hrender).
  injection Hlast as <-. exact Hrender.
Defined.

(** ** More on the search and the tests *)

(** The children of a node, each with what [visit] lists for it. *)
Fixpoint each_child {R} (visit : nat → Node → list R) (i : nat) (cs : list Node)
    : list R :=
  match cs with
  | [] => []
  | c :: cs' => (visit i c ++ each_child visit (S i) cs')%list
  end.

(** A node and the nodes below it, each with its ancestors, in the order
    [forEachChild] goes through them, a node before its children. *)
Fixpoint descendants (ctx : list Crumb) (n : Node) {struct n} : list NodeRef :=
  mkNodeRef n ctx ::
  match n with
  | Identifier _ _ => []
  | TypeOfExpression _ e => descendants (mkCrumb n InExpression :: ctx) e
  | BinaryExpression _ l _ r =>
      (descendants (mkCrumb n InLeft :: ctx) l ++
       descendants (mkCrumb n InRight :: ctx) r)%list
  | ConditionalExpression _ c t f =>
      (descendants (mkCrumb n InCondition :: ctx) c ++
       descendants (mkCrumb n InWhenTrue :: ctx) t ++
       descendants (mkCrumb n InWhenFalse :: ctx) f)%list
  | CallExpression _ e args =>
      (descendants (mkCrumb n InExpression :: ctx) e ++
       each_child (λ i c, descendants (mkCrumb n (InArguments i) :: ctx) c) 0 args)%list
  | ParenthesizedExpression _ e => descendants (mkCrumb n InExpression :: ctx) e
  | ArrayLiteralExpression _ es =>
      each_child (λ i c, descendants (mkCrumb n (InElements i) :: ctx) c) 0 es
  | FunctionExpression _ name ps b =>
      (match name with
       | Some nm => descendants (mkCrumb n InName :: ctx) nm
       | None => []
       end ++
       each_child (λ i c, descendants (mkCrumb n (InParameters i) :: ctx) c) 0 ps ++
       descendants (mkCrumb n InBody :: ctx) b)%list
  | Block _ ss =>
      each_child (λ i c, descendants (mkCrumb n (InStatements i) :: ctx) c) 0 ss
  | OtherNode _ cs =>
      each_child (λ i c, descendants (mkCrumb n (InChildren i) :: ctx) c) 0 cs
  end.

(** The wrappers [isGlobalFactoryCall] looks through, nearest first: nothing,
    a comma list, parentheses, or a comma list inside parentheses. *)
Definition global_call_wrappers (wrappers : list Crumb) : bool :=
  match wrappers with
  | [] => true
  | [w] => isCommaExpression (parent w) || isParenthesizedExpression (parent w)
  | [w1; w2] => isCommaExpression (parent w1) && isParenthesizedExpression (parent w2)
  | _ => false
  end.

Fixpoint contains_char (c : ascii) (s : string) : bool :=
  match s with
  | EmptyString => false
  | String x s' => bool_decide (x = c) || contains_char c s'
  end.

Lemma find_app_or_else {A} (P : A → bool) (l1 l2 : list A) :
  List.find P (l1 ++ l2)%list = or_else (List.find P l1) (List.find P l2).
Proof.
  induction l1 as [|x l1 IH]; simpl; [done|]. by destruct (P x).
Qed.

Lemma first_child_each_child {R} (P : R → bool) (visit : nat → Node → option R)
    (listed : nat → Node → list R) (cs : list Node) :
  (∀ c, c ∈ cs → ∀ i, visit i c = List.find P (listed i c)) →
  ∀ i, first_child visit i cs = List.find P (each_child listed i cs).
Proof.
  induction cs as [|c cs IH]; intros Hcs i; simpl; [done|].
  rewrite find_app_or_else, <- (Hcs c) by (by left).
  rewrite IH by (intros c' Hc'; apply Hcs; by right).
  by destruct (visit i c).
Qed.

(** X11: [find] returns the first node, in the order [forEachChild] goes
    through the tree (a node before its children), that passes the test, and
    nothing exactly when no node of the tree passes it. *)
Theorem find_first_descendant (test : list Crumb → Node → bool) :
  ∀ n ctx,
    find test ctx n
    = List.find (λ r, test (parents r) (node r)) (descendants ctx n) ∧
    (find test ctx n = None ↔
     ∀ r, r ∈ descendants ctx n → test (parents r) (node r) = false).
Proof.
  assert (Heq : ∀ n ctx, find test ctx n
            = List.find (λ r, test (parents r) (node r)) (descendants ctx n)).
  { fix IH 1. intros n ctx.
    assert (Hchildren : ∀ (mk : nat → Slot) cs,
              (∀ c, c ∈ cs → ∀ ctx', find test ctx' c
                 = List.find (λ r, test (parents r) (node r)) (descendants ctx' c)) →
              first_child (λ i c, find test (mkCrumb n (mk i) :: ctx) c) 0 cs
              = List.find (λ r, test (parents r) (node r))
                  (each_child (λ i c, descendants (mkCrumb n (mk i) :: ctx) c) 0 cs)).
    { intros mk cs Hcs. apply first_child_each_child. intros c Hc i.
      exact (Hcs c Hc _). }
    destruct n as [p t|p e|p l op r0|p c t f|p e args|p e|p es|p nm ps b|p ss|p cs];
      cbn [find descendants List.find parents node]; destruct (test ctx _);
      try reflexivity; rewrite ?find_app_or_else.
    - apply IH.
    - by rewrite !IH.
    - by rewrite !IH.
    - rewrite IH. f_equal. apply (Hchildren InArguments). clear -IH.
      induction args as [|a args IHa]; intros c Hc; [apply elem_of_nil in Hc; destruct Hc|].
      apply elem_of_cons in Hc as [Heq|Hc]; [rewrite Heq; apply IH|exact (IHa c Hc)].
    - apply IH.
    - apply (Hchildren InElements). clear -IH.
      induction es as [|a es IHa]; intros c Hc; [apply elem_of_nil in Hc; destruct Hc|].
      apply elem_of_cons in Hc as [Heq|Hc]; [rewrite Heq; apply IH|exact (IHa c Hc)].
    - rewrite (IH b). f_equal; [destruct nm; [apply IH|reflexivity]|]. f_equal.
      apply (Hchildren InParameters). clear -IH.
      induction ps as [|a ps IHa]; intros c Hc; [apply elem_of_nil in Hc; destruct Hc|].
      apply elem_of_cons in Hc as [Heq|Hc]; [rewrite Heq; apply IH|exact (IHa c Hc)].
    - apply (Hchildren InStatements). clear -IH.
      induction ss as [|a ss IHa]; intros c Hc; [apply elem_of_nil in Hc; destruct Hc|].
      apply elem_of_cons in Hc as [Heq|Hc]; [rewrite Heq; apply IH|exact (IHa c Hc)].
    - apply (Hchildren InChildren). clear -IH.
      induction cs as [|a cs IHa]; intros c Hc; [apply elem_of_nil in Hc; destruct Hc|].
      apply elem_of_cons in Hc as [Heq|Hc]; [rewrite Heq; apply IH|exact (IHa c Hc)]. }
  intros n ctx. split; [apply Heq|]. rewrite Heq. split.
  - intros Hnone r Hr. apply list_elem_of_In in Hr.
    by apply (find_none _ _ Hnone) in Hr.
  - intros Hall. destruct (List.find _ _) as [r|] eqn:Hfind; [|done].
    apply find_some in Hfind as [Hin Ht]. apply list_elem_of_In in Hin.
    by rewrite (Hall r Hin) in Ht.
Qed.

(** X12: no node passes both the CommonJS test and the AMD test. *)
Theorem commonjs_and_amd_exclusive (value : Node) :
  isCommonJSConditional value = true → isAmdConditional value = false.
Proof.
  destruct value as [| | |p c t f| | | | | |]; try done. simpl.
  destruct c as [| |? ? op ?| | | | | | |]; try done.
  destruct (negb (bool_decide (op = AmpersandAmpersandToken))); [done|].
  destruct (negb (oneOfBinaryConditions _ (isTypeOf ["exports"; "module"]))); [done|].
  destruct (negb (oneOfBinaryConditions _ (isTypeOf ["define"]))); [done|].
  destruct t as [| | | |? e ?| | | | |]; try done.
  destruct e as [? text| | | | | | | | |]; try done.
  intros ->%bool_decide_eq_true. by apply bool_decide_eq_false.
Qed.

(** X13: [isGlobalFactoryCall] returns [true] exactly when the node is a
    call expression and, going up from it through nothing, a comma list,
    parentheses, or a comma list inside parentheses, one reaches the
    [whenFalse] branch of a conditional expression. *)
Theorem isGlobalFactoryCall_iff (ctx : list Crumb) (value : Node) :
  isGlobalFactoryCall ctx value = true ↔
  isCallExpression value = true ∧
  ∃ wrappers c rest,
    ctx = (wrappers ++ c :: rest)%list ∧
    global_call_wrappers wrappers = true ∧
    isConditionalExpression (parent c) = true ∧ slot c = InWhenFalse.
Proof.
  assert (Hcond : ∀ n, isConditionalExpression n = true →
            isCommaExpression n = false ∧ isParenthesizedExpression n = false).
  { intros n. by destruct n. }
  assert (Hcomma : ∀ n, isCommaExpression n = true →
            isParenthesizedExpression n = false).
  { intros n. by destruct n. }
  unfold isGlobalFactoryCall. split.
  - destruct ctx as [|c up]; [done|].
    destruct (isCallExpression value); [|done]. intros H. split; [done|].
    destruct (isCommaExpression (parent c)) eqn:Hc; simpl in H.
    + destruct up as [|c1 up1]; [done|].
      destruct (isParenthesizedExpression (parent c1)) eqn:Hp; simpl in H.
      * destruct up1 as [|c2 up2]; [done|].
        apply andb_true_iff in H as [H1 H2%bool_decide_eq_true].
        exists [c; c1], c2, up2. simpl. by rewrite Hc, Hp.
      * apply andb_true_iff in H as [H1 H2%bool_decide_eq_true].
        exists [c], c1, up1. simpl. by rewrite Hc.
    + destruct (isParenthesizedExpression (parent c)) eqn:Hp; simpl in H.
      * destruct up as [|c2 up2]; [done|].
        apply andb_true_iff in H as [H1 H2%bool_decide_eq_true].
        exists [c], c2, up2. simpl. by rewrite Hc, Hp.
      * apply andb_true_iff in H as [H1 H2%bool_decide_eq_true].
        by exists [], c, up.
  - intros (Hcall & wrappers & c & rest & -> & Hw & Hc & Hs). rewrite Hcall.
    destruct (Hcond _ Hc) as [Hc1 Hc2].
    destruct wrappers as [|w1 [|w2 [|w3 ws]]]; simpl in Hw |- *; [| | |done].
    + rewrite Hc1. simpl. rewrite Hc2. simpl. rewrite Hc. by apply bool_decide_eq_true.
    + destruct (isCommaExpression (parent w1)) eqn:Hw1; simpl in *.
      * rewrite Hc2. simpl. rewrite Hc. by apply bool_decide_eq_true.
      * rewrite Hw. simpl. rewrite Hc. by apply bool_decide_eq_true.
    + apply andb_true_iff in Hw as [Hw1 Hw2]. rewrite Hw1. simpl. rewrite Hw2. simpl.
      rewrite Hc. by apply bool_decide_eq_true.
Qed.



Lemma replace_first_no_char (c : ascii) (pattern replacement s : string) :
  contains_char c s = false →
  replace_first (String c pattern) replacement s = s.
Proof.
  induction s as [|x s IH]; [done|]. simpl.
  intros [Hx Hs]%orb_false_iff. apply bool_decide_eq_false in Hx.
  destruct (ascii_dec c x) as [->|Hne]; [done|]. by rewrite IH.
Qed.

(** X14: the global name of an import of the Angular scope is [ng.] followed
    by what follows [@angular/] in its specifier, whatever follows; a
    specifier without the character [@] keeps its text, less one leading
    slash. *)
Theorem getGlobalIdentifier_cases (rest s qualifier' : string) :
  getGlobalIdentifier (mkImport ("@angular/" +:+ rest) qualifier') = "ng." +:+ rest ∧
  (contains_char "@" s = false →
   getGlobalIdentifier (mkImport s qualifier') = strip_leading_slash s).
Proof.
  unfold getGlobalIdentifier. simpl. split.
  - destruct rest; reflexivity.
  - intros Hs. by rewrite (replace_first_no_char "@" "angular/" "ng." s Hs).
Qed.


Lemma factoryInjectionPoint_None wrapperFunction :
  isWrapperCall wrapperFunction = false ∨
  factoryFunctionParameters wrapperFunction = Some [] →
  factoryInjectionPoint wrapperFunction = None.
Proof.
  unfold factoryInjectionPoint. intros [Hcall| ->]; [|done].
  unfold isWrapperCall, factoryFunctionParameters in *.
  destruct (parents wrapperFunction) as [|[par sl] up]; [done|]. by destruct par.
Qed.

Lemma appendRight_original o index content :
  original (appendRight o index content) = original o.
Proof. unfold appendRight. by case_bool_decide. Qed.

Lemma appendRight_frame o index content :
  original (appendRight o index content) = original o ∧
  intro (appendRight o index content) = intro o ∧
  lefts (appendRight o index content) = lefts o ∧
  ∀ i, i ≠ index →
       text_at (rights (appendRight o index content)) i = text_at (rights o) i.
Proof.
  unfold appendRight. case_bool_decide; simpl; split_and!; try done.
  intros i Hne. unfold text_at. by rewrite lookup_insert_ne.
Qed.

Lemma appendRight_appendRight o index a b :
  appendRight (appendRight o index a) index b = appendRight o index (a +:+ b).
Proof.
  unfold appendRight at 1. rewrite appendRight_original.
  unfold appendRight. case_bool_decide; simpl.
  - unfold text_at at 1. rewrite lookup_insert_eq. simpl.
    by rewrite insert_insert_eq, string_app_assoc.
  - by rewrite string_app_assoc.
Qed.

(** The statement [addExports] writes for an export of the entry point
    itself. *)
Definition own_export_line (e : ExportInfo) : string :=
  nl +:+ "exports." +:+ identifier e +:+ " = " +:+ identifier e +:+ ";".

(** Where [addExports] writes: the end of the last statement of the factory
    function, or just inside the closing brace of an empty body. *)
Definition exportsInsertionPoint (bp : Pos) (ss : list Node) : Z :=
  match last ss with
  | Some lastStatement => getEnd lastStatement
  | None => pos_end bp - 1
  end.

(** Where [addConstants] writes: the start of the first statement of the
    factory function, or just inside the opening brace of an empty body. *)
Definition constantsInsertionPoint (bp : Pos) (ss : list Node) : Z :=
  match ss with
  | firstStatement :: _ => getStart firstStatement
  | [] => pos_start bp + 1
  end.

Section FormatterEdits.

Context {SourceFile ImportManager : Type}.
Variable getUmdModule : SourceFile → option UmdModule.
Variable stripExtension : string → string.
Variable relative : string → string → string.
Variable dirname : string → string.
Variable generateNamedImport :
  ImportManager → string → string → NamedImport * ImportManager.

Local Abbreviation addExports' :=
  (addExports getUmdModule stripExtension relative dirname generateNamedImport).
Local Abbreviation addExport' :=
  (addExport stripExtension relative dirname generateNamedImport).

(** The exports that come from another file than the entry point. *)
Definition imported_exports (entryPointBasePath : string) (exports : list ExportInfo)
    : list ExportInfo :=
  filter (λ e, entryPointBasePath ≠ stripExtension (from e)) exports.

(** The import manager after it was asked for a named import for each of the
    exports, in their order. *)
Definition importManager_after (entryPointBasePath : string)
    (exports : list ExportInfo) (importManager : ImportManager) : ImportManager :=
  fold_left
    (λ im e,
       (generateNamedImport im
          ("./" +:+ relative (dirname entryPointBasePath) (stripExtension (from e)))
          (identifier e)).2)
    exports importManager.

Lemma addExport_fold_importManager entryPointBasePath point exports :
  ∀ output importManager,
    (fold_left (addExport' entryPointBasePath point) exports
       (output, importManager)).2
    = importManager_after entryPointBasePath
        (imported_exports entryPointBasePath exports) importManager.
Proof.
  unfold importManager_after, imported_exports.
  induction exports as [|e exports IH]; intros output importManager; [done|].
  cbn [fold_left]. unfold addExport at 2.
  rewrite filter_cons. case_bool_decide as Hown; case_decide as Hown'; try done; simpl.
  - apply IH.
  - destruct (generateNamedImport _ _ _) as [ni im] eqn:Hgen. simpl.
    apply IH.
Qed.

Lemma addExport_fold_frame entryPointBasePath point exports :
  ∀ st : MagicString * ImportManager,
    original (fold_left (addExport' entryPointBasePath point) exports st).1
    = original st.1 ∧
    intro (fold_left (addExport' entryPointBasePath point) exports st).1
    = intro st.1 ∧
    lefts (fold_left (addExport' entryPointBasePath point) exports st).1
    = lefts st.1 ∧
    ∀ i, i ≠ point →
         text_at (rights (fold_left (addExport' entryPointBasePath point) exports st).1) i
         = text_at (rights st.1) i.
Proof.
  assert (Hstep : ∀ (st : MagicString * ImportManager) e,
            original (addExport' entryPointBasePath point st e).1 = original st.1 ∧
            intro (addExport' entryPointBasePath point st e).1 = intro st.1 ∧
            lefts (addExport' entryPointBasePath point st e).1 = lefts st.1 ∧
            ∀ i, i ≠ point →
                 text_at (rights (addExport' entryPointBasePath point st e).1) i
                 = text_at (rights st.1) i).
  { intros [o im] e. unfold addExport. destruct (if negb _ then _ else _) as [ni im'].
    simpl. apply appendRight_frame. }
  induction exports as [|e exports IH]; intros st; [done|].
  cbn [fold_left].
  destruct (IH (addExport' entryPointBasePath point st e)) as (Ho & Hi & Hl & Hr).
  destruct (Hstep st e) as (Ho' & Hi' & Hl' & Hr').
  rewrite Ho, Hi, Hl. split_and!; try done.
  intros i Hne. by rewrite Hr, Hr'.
Qed.

Lemma addExport_fold_own entryPointBasePath point exports :
  Forall (λ e, stripExtension (from e) = entryPointBasePath) exports →
  ∀ output importManager first,
    fold_left (addExport' entryPointBasePath point) exports
      (appendRight output point first, importManager)
    = (appendRight output point (first +:+ concat_lines (map own_export_line exports)),
       importManager).
Proof.
  induction 1 as [|e exports He Hes IH]; intros output importManager first.
  - simpl. by rewrite string_app_nil_r.
  - cbn [fold_left map concat_lines]. unfold addExport at 2.
    rewrite bool_decide_eq_true_2 by done. simpl.
    rewrite appendRight_appendRight, IH. unfold own_export_line.
    by rewrite !string_app_assoc.
Qed.


(** X16: for a UMD module whose factory function has a block body,
    [addExports] ends normally; it asks the import manager for a named import
    once for each export that comes from another file than the entry point,
    in the order of the exports, and for no other; of the buffer it changes
    nothing but what is appended to the right of one offset, the end of the
    last statement of the factory function (just inside the closing brace
    when the body is empty); and when every export comes from the entry point
    itself the statements [exports.x = x;] are there in the order of the
    exports and the import manager is as it was. *)
Theorem addExports_one_point (output : MagicString) (entryPointBasePath : string)
    (exports : list ExportInfo) (importManager : ImportManager) (file : SourceFile)
    (umdModule : UmdModule) (p bp : Pos) (name : option Node) (ps ss : list Node) :
  getUmdModule file = Some umdModule →
  node (factoryFn umdModule) = FunctionExpression p name ps (Block bp ss) →
  let result := addExports' output entryPointBasePath exports importManager file in
  let point := exportsInsertionPoint bp ss in
  result.1 = Normal ∧
  result.2.2 = importManager_after entryPointBasePath
                 (imported_exports entryPointBasePath exports) importManager ∧
  original result.2.1 = original output ∧ intro result.2.1 = intro output ∧
  lefts result.2.1 = lefts output ∧
  (∀ i, i ≠ point → text_at (rights result.2.1) i = text_at (rights output) i) ∧
  (Forall (λ e, stripExtension (from e) = entryPointBasePath) exports →
   result.2.2 = importManager ∧
   (exports = [] → result.2.1 = output) ∧
   (exports ≠ [] →
    result.2.1
    = appendRight output point (concat_lines (map own_export_line exports)))).
Proof.
  intros Humd Hfn result point. subst result. unfold addExports.
  rewrite Humd, Hfn. fold (exportsInsertionPoint bp ss). fold point. simpl.
  split_and!; [done|apply addExport_fold_importManager|
               apply (addExport_fold_frame _ _ _ (output, importManager))..|].
  intros Hown. destruct exports as [|e exports]; [done|].
  apply Forall_cons in Hown as [He Hes].
  cbn [fold_left map concat_lines]. unfold addExport at 2 4 6.
  rewrite bool_decide_eq_true_2 by done. simpl.
  rewrite (addExport_fold_own _ _ _ Hes). simpl. split_and!; [done..|].
  intros _. unfold own_export_line. by rewrite !string_app_assoc.
Qed.

(** X17: [addConstants] with no constants does nothing, whatever the file;
    with constants and a UMD module whose factory function has a block body,
    the rendered text is the one before, with the constants between two line
    breaks put in at the start of the first statement of the factory function
    (just inside the opening brace when the body is empty), after all that
    was already inserted to the left of that offset. *)
Theorem addConstants_rendered (output : MagicString) (constants : string)
    (file : SourceFile) :
  addConstants getUmdModule output "" file = (Normal, output) ∧
  ∀ (umdModule : UmdModule) (p bp : Pos) (name : option Node) (ps ss : list Node)
    (index : nat),
    getUmdModule file = Some umdModule →
    node (factoryFn umdModule) = FunctionExpression p name ps (Block bp ss) →
    constantsInsertionPoint bp ss = Z.of_nat index →
    (0 < index ≤ String.length (original output))%nat →
    constants ≠ "" →
    (addConstants getUmdModule output constants file).1 = Normal ∧
    toString (addConstants getUmdModule output constants file).2
    = rendered_before output index +:+ nl +:+ constants +:+ nl
      +:+ rendered_after output index ∧
    toString output = rendered_before output index +:+ rendered_after output index.
Proof.
  split; [done|]. intros umdModule p bp name ps ss index Humd Hfn Hpoint Hrange Hne.
  unfold addConstants. rewrite bool_decide_eq_false_2 by done.
  rewrite Humd, Hfn. fold (constantsInsertionPoint bp ss). rewrite Hpoint. simpl.
  split_and!; [done| |apply toString_split].
  rewrite toString_appendLeft by done. by rewrite !string_app_assoc.
Qed.

End FormatterEdits.

(** ** The formatter on the three files *)

(** The CommonJS conditional of the first file. *)
Definition umd_commonjs_conditional : Node :=
  default umd_statement (node <$> find (λ _, isCommonJSConditional) [] umd_statement).

(** An import manager that numbers the namespaces it hands out. *)
Definition numbered_import (count : nat) (path sym : string) : NamedImport * nat :=
  (mkNamedImport (Some (match count with O => "i0" | _ => "i1" end)) sym, S count).

Definition strip_js (path : string) : string :=
  match path with
  | "index.js" => "index"
  | "other.js" => "other"
  | _ => path
  end.

Definition two_exports : list ExportInfo :=
  [mkExportInfo "ComponentA" "index.js"; mkExportInfo "ComponentB" "other.js"].

Example addExports_at_the_bottom :
  let r := addExports host strip_js (λ _ to, to) (λ _, ".") numbered_import
             (new_MagicString umd_text) "index" two_exports 0%nat "f.umd.js" in
  r.1 = Normal ∧ r.2.2 = 1%nat ∧
  toString r.2.1 =
  "(function (global, factory) {typeof exports === 'object' && typeof module !== 'undefined' ? factory(exports,require('a')) : typeof define === 'function' && define.amd ? define('f', ['exports','a'], factory) : (factory(global.f,global.a));}(this, (function (exports,a) {"
    +:+ nl +:+ "exports.ComponentA = ComponentA;"
    +:+ nl +:+ "exports.ComponentB = i0.ComponentB;" +:+ "})));".
Proof. vm_compute. split_and!; reflexivity. Qed.

Lemma find_first_descendant_witness :
  find (λ _ _, false) [] umd_statement = None ∧
  find (λ _, isAmdConditional) [] umd_statement
  = List.find (λ r, isAmdConditional (node r)) (descendants [] umd_statement).
Proof.
  split.
  - apply (find_first_descendant (λ _ _, false) umd_statement []).
    intros r _. reflexivity.
  - exact (proj1 (find_first_descendant (λ _, isAmdConditional) umd_statement [])).
Defined.

Lemma commonjs_and_amd_exclusive_witness :
  isCommonJSConditional umd_commonjs_conditional = true ∧
  isAmdConditional umd_commonjs_conditional = false.
Proof.
  assert (H : isCommonJSConditional umd_commonjs_conditional = true)
    by (vm_compute; reflexivity).
  split; [exact H|exact (commonjs_and_amd_exclusive _ H)].
Defined.

Lemma getGlobalIdentifier_cases_witness :
  contains_char "@" "/local-dep" = false ∧
  getGlobalIdentifier (mkImport "@angular/core" "i0") = "ng.core" ∧
  getGlobalIdentifier (mkImport "/local-dep" "i1") = "local-dep".
Proof.
  assert (H : contains_char "@" "/local-dep" = false) by reflexivity.
  destruct (getGlobalIdentifier_cases "core" "/local-dep" "i0") as [Hng _].
  destruct (getGlobalIdentifier_cases "core" "/local-dep" "i1") as [_ Hlocal].
  split_and!; [exact H|exact Hng|exact (Hlocal H)].
Defined.


Lemma addExports_one_point_witness :
  host "f.umd.js" = Some umd_module ∧
  Forall (λ e, strip_js (from e) = "index") [mkExportInfo "ComponentA" "index.js"] ∧
  (addExports host strip_js (λ _ to, to) (λ _, ".") numbered_import
     (new_MagicString umd_text) "index" two_exports 0%nat "f.umd.js").2.2
  = (numbered_import 0 "./other" "ComponentB").2 ∧
  (addExports host strip_js (λ _ to, to) (λ _, ".") numbered_import
     (new_MagicString umd_text) "index" [mkExportInfo "ComponentA" "index.js"]
     0%nat "f.umd.js").2.1
  = appendRight (new_MagicString umd_text) 269
      (nl +:+ "exports.ComponentA = ComponentA;").
Proof.
  assert (H1 : host "f.umd.js" = Some umd_module) by reflexivity.
  assert (H2 : Forall (λ e, strip_js (from e) = "index")
                 [mkExportInfo "ComponentA" "index.js"])
    by (repeat constructor).
  split_and!; [exact H1|exact H2| |].
  - exact (proj1 (proj2 (addExports_one_point host strip_js (λ _ to, to) (λ _, ".")
             numbered_import (new_MagicString umd_text) "index" two_exports 0%nat
             "f.umd.js" umd_module _ _ _ _ _ H1 eq_refl))).
  - destruct (addExports_one_point host strip_js (λ _ to, to) (λ _, ".")
                numbered_import (new_MagicString umd_text) "index"
                [mkExportInfo "ComponentA" "index.js"] 0%nat
                "f.umd.js" umd_module _ _ _ _ _ H1 eq_refl)
      as (_ & _ & _ & _ & _ & _ & Hown).
    destruct (Hown H2) as (_ & _ & Hline). exact (Hline ltac:(discriminate)).
Defined.

Lemma addConstants_rendered_witness :
  host "f.umd.js" = Some umd_module ∧
  addConstants host (new_MagicString umd_text) "" "main.js"
  = (Normal, new_MagicString umd_text) ∧
  toString (addConstants host (new_MagicString umd_text) "var x = 1;" "f.umd.js").2
  = rendered_before (new_MagicString umd_text) 269 +:+ nl +:+ "var x = 1;" +:+ nl
    +:+ rendered_after (new_MagicString umd_text) 269.
Proof.
  assert (H1 : host "f.umd.js" = Some umd_module) by reflexivity.
  split_and!; [exact H1| |].
  - exact (proj1 (addConstants_rendered host (new_MagicString umd_text) ""
                    "main.js")).
  - destruct (addConstants_rendered host (new_MagicString umd_text) "var x = 1;"
                "f.umd.js") as [_ Hrendered].
    exact (proj1 (proj2 (Hrendered umd_module _ _ _ _ _ 269%nat H1 eq_refl eq_refl
                           ltac:(vm_compute; lia) ltac:(discriminate)))).
Defined.

End Umd.

(** * ngcc/src/dependencies/esm_dependency_host.ts

    The host itself is not among the sources, its tests are. *)

Module EsmDependencyHost.

Local Open Scope string_scope.

Abbreviation Path := string (only parsing).

(** ** The textual pre-filter *)

Definition is_line_terminator (c : ascii) : bool :=
  bool_decide (c = "010"%char) || bool_decide (c = "013"%char).

Definition is_space (c : ascii) : bool :=
  bool_decide (c = " "%char) || bool_decide (c = "009"%char) ||
  bool_decide (c = "011"%char) || bool_decide (c = "012"%char) ||
  is_line_terminator c.

(** At least one character of the current line, then the word [from]. *)
Fixpoint from_follows (s : string) : bool :=
  match s with
  | EmptyString => false
  | String c s' =>
      if is_line_terminator c then false
      else String.prefix "from" s' || from_follows s'
  end.

Definition statement_at (s : string) : bool :=
  (String.prefix "import" s || String.prefix "export" s) &&
  match Umd.string_drop 6 s with
  | String c rest => is_space c && from_follows rest
  | EmptyString => false
  end.

(** Modelled from the spec: [EsmDependencyHost.hasImportOrReexportStatements],
    whose file is missing. The spec calls it a cheap string search for an
    import-or-re-export-shaped statement in the raw text; the shape taken here
    is the one the tests of the method in the sources agree with: somewhere in
    the text the word [import] or [export], one white-space character, at
    least one character on the same line, and the word [from]. *)
Fixpoint hasImportOrReexportStatements (source : string) : bool :=
  statement_at source ||
  match source with
  | EmptyString => false
  | String _ source' => hasImportOrReexportStatements source'
  end.

(** ** The shape the pre-filter looks for *)



(** The text holds the word. *)
Fixpoint contains_word (word text : string) : bool :=
  String.prefix word text ||
  match text with
  | EmptyString => false
  | String _ text' => contains_word word text'
  end.






(** ** The dependency scan *)

(** What the Module Resolver and the classification of the spec make of one
    specifier found in one file. *)
Inductive Target :=
| Internal (file : Path)
| ExternalEntryPoint (root : Path)
| DeepImport (path : Path)
| Unresolved.

Record DependencySet := mkDependencySet {
  dependencies : list Path;
  missing : list string;
  deepImports : list Path
}.

(** One call of [findDependencies]: the three sets, in the order of first
    discovery and without duplicates, the visited set, and the files a syntax
    tree was built for. *)
Record Scan := mkScan {
  found : DependencySet;
  visited : gset Path;
  syntaxTrees : list Path
}.

Definition set_add (x : string) (s : list string) : list string :=
  if bool_decide (x ∈ s) then s else s ++ [x].

Definition add_dependency (root : Path) (st : Scan) : Scan :=
  mkScan (mkDependencySet (set_add root (dependencies (found st)))
                          (missing (found st)) (deepImports (found st)))
         (visited st) (syntaxTrees st).

Definition add_missing (spec : string) (st : Scan) : Scan :=
  mkScan (mkDependencySet (dependencies (found st))
                          (set_add spec (missing (found st))) (deepImports (found st)))
         (visited st) (syntaxTrees st).

Definition add_deepImport (path : Path) (st : Scan) : Scan :=
  mkScan (mkDependencySet (dependencies (found st)) (missing (found st))
                          (set_add path (deepImports (found st))))
         (visited st) (syntaxTrees st).

Definition mark_visited (file : Path) (st : Scan) : Scan :=
  mkScan (found st) ({[file]} ∪ visited st) (syntaxTrees st).

Definition build_tree (file : Path) (st : Scan) : Scan :=
  mkScan (found st) (visited st) (syntaxTrees st ++ [file]).

(** A loop whose body may not return. *)
Fixpoint foldM {A S} (f : S → A → option S) (l : list A) (s : S) : option S :=
  match l with
  | [] => Some s
  | a :: l' =>
      match f s a with
      | Some s' => foldM f l' s'
      | None => None
      end
  end.

Section Host.

(** The collaborators: the file system, the parser together with the walk
    over the top-level statements (the specifiers of the static imports and
    re-exports of a text, in order), and the resolver. *)
Variable readFile : Path → string.
Variable importSpecifiers : string → list string.
Variable resolve : string → Path → Target.

(** Modelled from the spec: what section 4.2 does with one specifier of
    [file]; [recurse] scans an internal file. *)
Definition visitImport (recurse : Path → Scan → option Scan) (file : Path)
    (st : Scan) (spec : string) : option Scan :=
  match resolve spec file with
  | Unresolved => Some (add_missing spec st)
  | ExternalEntryPoint root => Some (add_dependency root st)
  | DeepImport path => Some (add_deepImport path st)
  | Internal target =>
      if bool_decide (target ∈ visited st) then Some st
      else recurse target (mark_visited target st)
  end.

(** Modelled from the spec: the scan of one file of section 4.2, the source
    of the host being missing. The recursion of the source is bounded here by
    [fuel], one unit per file entered; [None] is fuel running out. *)
Fixpoint scanFile (fuel : nat) (file : Path) (st : Scan) : option Scan :=
  match fuel with
  | O => None
  | S fuel' =>
      let text := readFile file in
      if negb (hasImportOrReexportStatements text) then Some st
      else foldM (visitImport (scanFile fuel') file)
                 (importSpecifiers text) (build_tree file st)
  end.

(** Modelled from the spec: [findDependencies(entryFile)]. *)
Definition findDependencies (fuel : nat) (entryFile : Path) : option Scan :=
  scanFile fuel entryFile
    (mkScan (mkDependencySet [] [] []) {[entryFile]} []).

(** ** The import graph *)







(** ** What the scan reads

    The part of the import graph the scan goes through: the declarations of
    the files that pass the pre-filter. *)





















Section Finite.

(** The internal files of the package: every internal target is one. *)
Variable packageFiles : gset Path.
Hypothesis internal_in_package :
  ∀ spec file target, resolve spec file = Internal target → target ∈ packageFiles.











End Finite.


End Host.

(** ** The tests of the host *)

Definition dq : string := String "034"%char EmptyString.
Definition tab : string := String "009"%char EmptyString.

Example hasImportOrReexportStatements_import :
  map hasImportOrReexportStatements
    ["import {X} from " +:+ dq +:+ "some/x" +:+ dq +:+ ";";
     "import * as X from " +:+ dq +:+ "some/x" +:+ dq +:+ ";";
     "blah blah" +:+ Umd.nl +:+ Umd.nl +:+ "  import {X} from " +:+ dq +:+ "some/x"
       +:+ dq +:+ ";" +:+ Umd.nl +:+ "blah blah";
     tab +:+ tab +:+ "import {X} from " +:+ dq +:+ "some/x" +:+ dq +:+ ";"]
  = [true; true; true; true].
Proof. vm_compute. reflexivity. Qed.

Example hasImportOrReexportStatements_reexport :
  map hasImportOrReexportStatements
    ["export {X} from " +:+ dq +:+ "some/x" +:+ dq +:+ ";";
     "blah blah" +:+ Umd.nl +:+ Umd.nl +:+ "  export {X} from " +:+ dq +:+ "some/x"
       +:+ dq +:+ ";" +:+ Umd.nl +:+ "blah blah";
     tab +:+ tab +:+ "export {X} from " +:+ dq +:+ "some/x" +:+ dq +:+ ";";
     "blah blah" +:+ Umd.nl +:+ Umd.nl +:+ "  export * from " +:+ dq +:+ "@angular/core;"
       +:+ Umd.nl +:+ "blah blah"]
  = [true; true; true; true].
Proof. vm_compute. reflexivity. Qed.

Example hasImportOrReexportStatements_neither :
  map hasImportOrReexportStatements
    ["blah blah"; "export function moo() {}";
     "Some text that happens to include the word import"]
  = [false; false; false].
Proof. vm_compute. reflexivity. Qed.

(** The mock file system of the tests, as far as the scan reads it. *)
Definition mock_files : list (Path * string) :=
  [("/no/imports/or/re-exports/index.js", "// some text but no import-like statements");
   ("/external/imports/index.js",
    "import {X} from 'lib-1';" +:+ Umd.nl +:+ "import {Y} from 'lib-1/sub-1';");
   ("/external/imports-missing/index.js",
    "import {X} from 'lib-1';" +:+ Umd.nl +:+ "import {Y} from 'missing';");
   ("/external/deep-import/index.js", "import {Y} from 'lib-1/deep/import';");
   ("/internal/outer/index.js", "import {X} from '../inner';");
   ("/internal/inner/index.js", "import {Y} from 'lib-1/sub-1'; export declare class X {}");
   ("/internal/circular-a/index.js",
    "import {B} from '../circular-b'; import {X} from '../circular-b'; export {Y} from 'lib-1/sub-1';");
   ("/internal/circular-b/index.js",
    "import {A} from '../circular-a'; import {Y} from '../circular-a'; export {X} from 'lib-1';")].

Definition mock_readFile (file : Path) : string :=
  default "" (snd <$> List.find (λ e, bool_decide (e.1 = file)) mock_files).

(** A stand-in for the parser that is good for the test files: the quoted
    text after each [from]. *)
Fixpoint until_quote (s : string) : string :=
  match s with
  | EmptyString => EmptyString
  | String c s' => if bool_decide (c = "'"%char) then EmptyString
                   else String c (until_quote s')
  end.

Fixpoint mock_importSpecifiers (text : string) : list string :=
  match text with
  | EmptyString => []
  | String _ text' =>
      if String.prefix "from '" text
      then until_quote (Umd.string_drop 6 text) :: mock_importSpecifiers text'
      else mock_importSpecifiers text'
  end.

(** A stand-in for the resolver over the mock file system. *)
Definition mock_resolve (spec : string) (fromFile : Path) : Target :=
  if bool_decide (spec = "lib-1") then ExternalEntryPoint "/node_modules/lib-1"
  else if bool_decide (spec = "lib-1/sub-1") then ExternalEntryPoint "/node_modules/lib-1/sub-1"
  else if bool_decide (spec = "lib-1/deep/import")
  then DeepImport "/node_modules/lib-1/deep/import"
  else if bool_decide (spec = "../inner") then Internal "/internal/inner/index.js"
  else if bool_decide (spec = "../circular-a") then Internal "/internal/circular-a/index.js"
  else if bool_decide (spec = "../circular-b") then Internal "/internal/circular-b/index.js"
  else Unresolved.


Definition mock_findDependencies (entryFile : Path) : option Scan :=
  findDependencies mock_readFile mock_importSpecifiers mock_resolve 4 entryFile.

Example test_no_syntax_tree :
  syntaxTrees <$> mock_findDependencies "/no/imports/or/re-exports/index.js" = Some [].
Proof. vm_compute. reflexivity. Qed.

Example test_external_imports :
  found <$> mock_findDependencies "/external/imports/index.js"
  = Some (mkDependencySet ["/node_modules/lib-1"; "/node_modules/lib-1/sub-1"] [] []).
Proof. vm_compute. reflexivity. Qed.

Example test_missing_imports :
  found <$> mock_findDependencies "/external/imports-missing/index.js"
  = Some (mkDependencySet ["/node_modules/lib-1"] ["missing"] []).
Proof. vm_compute. reflexivity. Qed.

Example test_deep_import :
  found <$> mock_findDependencies "/external/deep-import/index.js"
  = Some (mkDependencySet [] [] ["/node_modules/lib-1/deep/import"]).
Proof. vm_compute. reflexivity. Qed.

Example test_internal_dependencies :
  found <$> mock_findDependencies "/internal/outer/index.js"
  = Some (mkDependencySet ["/node_modules/lib-1/sub-1"] [] []).
Proof. vm_compute. reflexivity. Qed.

Example test_circular_dependencies :
  found <$> mock_findDependencies "/internal/circular-a/index.js"
  = Some (mkDependencySet ["/node_modules/lib-1"; "/node_modules/lib-1/sub-1"] [] []).
Proof. vm_compute. reflexivity. Qed.





(** ** Where the two claims fail as they are stated *)

(** An import declaration over several lines: the parser finds it, the
    pre-filter does not. *)
Definition multiline_text : string :=
  "import {" +:+ Umd.nl +:+ "  X" +:+ Umd.nl +:+ "} from 'lib-1';".

Definition multiline_readFile (file : Path) : string :=
  if bool_decide (file = "/multi-line/index.js") then multiline_text else "".

Example multiline_import_is_skipped :
  (hasImportOrReexportStatements multiline_text,
   mock_importSpecifiers multiline_text,
   found <$> findDependencies multiline_readFile mock_importSpecifiers mock_resolve 4
               "/multi-line/index.js")
  = (false, ["lib-1"], Some (mkDependencySet [] [] [])).
Proof. vm_compute. reflexivity. Qed.


(** A text without any declaration that the pre-filter accepts. *)
Example prefilter_accepts_prose :
  (contains_word "import" "the import of goods from abroad",
   mock_importSpecifiers "the import of goods from abroad",
   hasImportOrReexportStatements "the import of goods from abroad")
  = (true, [], true).
Proof. vm_compute. reflexivity. Qed.


End EsmDependencyHost.
